(** * Autocorrect engines: a shallow embedding and its properties

    The three engines of [autocorrect_package] ([Autocorrection],
    [HybridAutocorrection], [EnhancedAutocorrection]) are embedded as pure
    functions over explicit engine states.  Python dictionaries are finite
    maps, Python sets are finite sets, Python [str] values are strings of
    8-bit characters, and Python floats are idealised: probabilities are
    exact rationals and logarithms are extended reals. *)

From Stdlib Require Import Ascii String QArith Qcanon Reals Qreals Lra.
From stdpp Require Import base decidable numbers option list sorting strings gmap fin_maps fin_sets.

Local Open Scope string_scope.

(** ** Characters and words *)

Module Str.

(** [string.ascii_lowercase] *)
Definition ascii_lowercase : list ascii :=
  list_ascii_of_string "abcdefghijklmnopqrstuvwxyz".

(** [c in string.ascii_lowercase] *)
Definition is_lower (c : ascii) : bool :=
  let n := nat_of_ascii c in (97 <=? n)%nat && (n <=? 122)%nat.

Definition is_upper (c : ascii) : bool :=
  let n := nat_of_ascii c in (65 <=? n)%nat && (n <=? 90)%nat.

(** [str.lower] on one character: only the letters A-Z change. *)
Definition lower_ascii (c : ascii) : ascii :=
  if is_upper c then ascii_of_nat (nat_of_ascii c + 32) else c.

(** [word.lower()] *)
Fixpoint lower (s : string) : string :=
  match s with
  | EmptyString => EmptyString
  | String c s' => String (lower_ascii c) (lower s')
  end.

(** Every character of the word is one of [a-z]. *)
Fixpoint all_lower (s : string) : bool :=
  match s with
  | EmptyString => true
  | String c s' => is_lower c && all_lower s'
  end.

(** [r[1:]] *)
Definition tail (s : string) : string :=
  match s with
  | EmptyString => EmptyString
  | String _ s' => s'
  end.

(** [[(word[:i], word[i:]) for i in range(len(word) + 1)]] *)
Fixpoint splits (word : string) : list (string * string) :=
  match word with
  | EmptyString => [(EmptyString, EmptyString)]
  | String c w => (EmptyString, word) :: ((λ lr, (String c lr.1, lr.2)) <$> splits w)
  end.

End Str.

(** ** Candidate generator *)

(** [insert = [l + c + r for l, r in splits for c in letter]] *)
Definition edit1_insert (word : string) : list string :=
  '(l, r) ← Str.splits word; c ← Str.ascii_lowercase; [l +:+ String c r].

(** [delete = [l + r[1:] for l, r in splits if r]] *)
Definition edit1_delete (word : string) : list string :=
  '(l, r) ← Str.splits word;
  match r with EmptyString => [] | String _ r1 => [l +:+ r1] end.

(** [replace = [l + c + r[1:] for l, r in splits if r for c in letter]] *)
Definition edit1_replace (word : string) : list string :=
  '(l, r) ← Str.splits word;
  match r with
  | EmptyString => []
  | String _ r1 => c ← Str.ascii_lowercase; [l +:+ String c r1]
  end.

(** [swap = [l + r[1] + r[0] + r[2:] for l, r in splits if len(r) > 1]] *)
Definition edit1_swap (word : string) : list string :=
  '(l, r) ← Str.splits word;
  match r with
  | String r0 (String r1 r2) => [l +:+ String r1 (String r0 r2)]
  | _ => []
  end.

(** [edit1]: [set(replace + insert + delete + swap)] *)
Definition edit1 (word : string) : gset string :=
  list_to_set (edit1_replace word ++ edit1_insert word ++ edit1_delete word ++ edit1_swap word).

(** [edit2]: [[e2 for e1 in self.edit1(word) for e2 in self.edit1(e1)]];
    the iteration order of a Python set is unspecified, [elements] fixes one. *)
Definition edit2 (word : string) : list string :=
  e1 ← elements (edit1 word); elements (edit1 e1).

(** [self.edit1(word).union(self.edit2(word))] *)
Definition candidates (word : string) : gset string :=
  edit1 word ∪ list_to_set (edit2 word).

(** ** Numbers

    A Python float that is the quotient of two counters is an exact rational
    [Qc]; the result of [np.log] is an extended real, so that [np.log(0)],
    which numpy evaluates to [-inf], is represented. *)

Inductive xreal : Type :=
  | Fin (r : R)
  | PInf
  | NInf
  | NaN.

Module X.

Definition of_Z (z : Z) : xreal := Fin (IZR z).

(** unary minus *)
Definition opp (x : xreal) : xreal :=
  match x with
  | Fin r => Fin (- r)
  | PInf => NInf
  | NInf => PInf
  | NaN => NaN
  end.

(** [x + y] *)
Definition add (x y : xreal) : xreal :=
  match x, y with
  | NaN, _ | _, NaN => NaN
  | Fin a, Fin b => Fin (a + b)
  | PInf, NInf | NInf, PInf => NaN
  | PInf, _ | _, PInf => PInf
  | NInf, _ | _, NInf => NInf
  end.

(** [x * k] for a finite constant [k] *)
Definition scale (x : xreal) (k : R) : xreal :=
  match x with
  | Fin a => Fin (a * k)
  | NaN => NaN
  | PInf => if Rlt_dec 0 k then PInf else if Rlt_dec k 0 then NInf else NaN
  | NInf => if Rlt_dec 0 k then NInf else if Rlt_dec k 0 then PInf else NaN
  end.

(** [abs(x)] *)
Definition abs (x : xreal) : xreal :=
  match x with
  | Fin a => Fin (Rabs a)
  | PInf | NInf => PInf
  | NaN => NaN
  end.

(** [x < y]; every comparison with NaN is false. *)
Definition lt (x y : xreal) : Prop :=
  match x, y with
  | NaN, _ | _, NaN => False
  | Fin a, Fin b => (a < b)%R
  | Fin _, PInf | NInf, Fin _ | NInf, PInf => True
  | _, _ => False
  end.

Definition ltb (x y : xreal) : bool :=
  match x, y with
  | NaN, _ | _, NaN => false
  | Fin a, Fin b => if Rlt_dec a b then true else false
  | Fin _, PInf | NInf, Fin _ | NInf, PInf => true
  | _, _ => false
  end.

End X.

(** [np.log] on a float that is an exact rational *)
Definition np_log (q : Qc) : xreal :=
  if decide (q = 0%Qc) then NInf
  else if decide (q < 0)%Qc then NaN
  else Fin (ln (Q2R q)).

Definition Qc_of_nat (n : nat) : Qc := Qc_of_Z (Z.of_nat n).

(** The literals [1e-9] and [0.001]. *)
Definition prob_floor : Qc := (1 / Qc_of_Z 1000000000)%Qc.
Definition custom_word_prob : Qc := (1 / Qc_of_Z 1000)%Qc.

(** ** Scorer: structural part *)

(** [editdistance.eval]: the Levenshtein distance of the two strings. *)
Fixpoint levenshtein (s t : string) : nat :=
  match s with
  | EmptyString => String.length t
  | String a s' =>
      (fix inner (t : string) : nat :=
         match t with
         | EmptyString => String.length s
         | String b t' =>
             if decide (a = b) then levenshtein s' t'
             else S (levenshtein s' t `min` (inner t' `min` levenshtein s' t'))
         end) t
  end.

Definition editdistance_eval (s t : string) : Z := Z.of_nat (levenshtein s t).

(** [common_prefix_length]: count the leading positions of [zip(word1, word2)]
    that agree, stopping at the first that does not. *)
Fixpoint common_prefix_length (word1 word2 : string) : Z :=
  match word1, word2 with
  | String c1 w1, String c2 w2 =>
      if decide (c1 = c2) then 1 + common_prefix_length w1 w2 else 0
  | _, _ => 0
  end.

Definition len (s : string) : Z := Z.of_nat (String.length s).

Definition replace_weight : Z := 1.
Definition insert_weight : Z := 2.
Definition delete_weight : Z := 3.
Definition swap_weight : Z := 4.

(** [custom_score] *)
Definition custom_score (suggestion original_word : string) : Z :=
  let distance := editdistance_eval suggestion original_word in
  if (len suggestion =? len original_word)%Z then
    let common_prefix_len := common_prefix_length suggestion original_word in
    distance * replace_weight + (len original_word - common_prefix_len)
  else if (len suggestion =? len original_word + 1)%Z then
    let common_prefix_len := common_prefix_length suggestion original_word in
    distance * insert_weight + (len original_word - common_prefix_len)
  else if (len suggestion =? len original_word - 1)%Z then
    distance * delete_weight
  else
    distance * swap_weight.

(** ** Engine state *)

(** One [{'accepted': a, 'rejected': r}] record. *)
Record feedback : Type := Feedback { accepted : nat; rejected : nat }.

(** What the engines use of the SymSpell object: the dictionary [_words]
    and [lookup(word, Verbosity.CLOSEST, max_edit_distance=2,
    include_unknown=True)], a list of [(term, count)] items. *)
Record SymSpell : Type := {
  sym_words : gset string;
  sym_lookup : string → list (string * Z)
}.

(** The attributes of an engine object.  The plain engine has no n-gram
    table of order three, no custom words, feedback or shortcuts; the
    hybrid engine has no shortcuts; only the enhanced engine has a SymSpell
    object.  An attribute a class does not have stays empty. *)
Record engine : Type := Engine {
  vocabulary : gset string;
  prob_of_word : gmap string Qc;
  prob_of_bigram : gmap (string * string) Qc;
  prob_of_trigram : gmap (string * string * string) Qc;
  custom_words : gset string;
  shortcuts : gmap string string;
  user_feedback : gmap string (gmap string feedback);
  sym_spell : SymSpell
}.

Definition no_sym_spell : SymSpell :=
  {| sym_words := ∅; sym_lookup := λ _, [] |}.

Section counting.
Context `{Countable K}.

(** [Counter(items)] *)
Definition Counter (items : list K) : gmap K nat :=
  foldl (λ m k, <[k := S (default 0%nat (m !! k))]> m) ∅ items.

(** The counting loop, from any starting table. *)
Definition count_from (m : gmap K nat) (l : list K) : gmap K nat :=
  foldl (λ m k, <[k := S (default 0%nat (m !! k))]> m) m l.

(** [sum(counts.values())] *)
Definition sum_counts (counts : gmap K nat) : nat :=
  map_fold (λ _ c acc, (c + acc)%nat) 0%nat counts.

(** [{k: counts[k] / total for k in counts.keys()}] *)
Definition probabilities (counts : gmap K nat) : gmap K Qc :=
  let total := Qc_of_nat (sum_counts counts) in
  (λ c, Qc_of_nat c / total)%Qc <$> counts.

(** The sum of the stored probabilities. *)
Definition sum_probs (probs : gmap K Qc) : Qc :=
  map_fold (λ _ p acc, p + acc)%Qc 0%Qc probs.
End counting.

(** [nltk.bigrams]: the consecutive pairs. *)
Fixpoint nltk_bigrams (words : list string) : list (string * string) :=
  match words with
  | a :: (b :: _) as rest => (a, b) :: nltk_bigrams rest
  | _ => []
  end.

(** [nltk.trigrams]: the consecutive triples. *)
Fixpoint nltk_trigrams (words : list string) : list (string * string * string) :=
  match words with
  | a :: (b :: c :: _) as rest => (a, b, c) :: nltk_trigrams rest
  | _ => []
  end.

(** An object before [build_vocabulary] ran: every attribute empty. *)
Definition fresh (sym : SymSpell) : engine :=
  Engine ∅ ∅ ∅ ∅ ∅ ∅ ∅ sym.

(** [build_vocabulary] *)
Definition build_vocabulary (st : engine) (all_words : list string) : engine :=
  Engine (list_to_set all_words ∪ custom_words st)
         (probabilities (Counter all_words))
         (probabilities (Counter (nltk_bigrams all_words)))
         (probabilities (Counter (nltk_trigrams all_words)))
         (custom_words st) (shortcuts st) (user_feedback st) (sym_spell st).

(** [load_custom_words]: when the file exists, its word list and feedback
    table replace the two attributes. *)
Definition load_custom_words
    (file : option (list string * gmap string (gmap string feedback)))
    (st : engine) : engine :=
  match file with
  | Some (words, fb) =>
      Engine (vocabulary st) (prob_of_word st) (prob_of_bigram st) (prob_of_trigram st)
             (list_to_set words) (shortcuts st) fb (sym_spell st)
  | None => st
  end.

(** [load_shortcuts] *)
Definition load_shortcuts (file : option (gmap string string)) (st : engine) : engine :=
  match file with
  | Some sc =>
      Engine (vocabulary st) (prob_of_word st) (prob_of_bigram st) (prob_of_trigram st)
             (custom_words st) sc (user_feedback st) (sym_spell st)
  | None => st
  end.

(** [Autocorrection.__init__] *)
Definition plain_init (words : list string) : engine :=
  {| vocabulary := list_to_set words;
     prob_of_word := probabilities (Counter words);
     prob_of_bigram := probabilities (Counter (nltk_bigrams words));
     prob_of_trigram := ∅;
     custom_words := ∅;
     shortcuts := ∅;
     user_feedback := ∅;
     sym_spell := no_sym_spell |}.

(** [HybridAutocorrection.__init__] *)
Definition hybrid_init (all_words : list string)
    (file : option (list string * gmap string (gmap string feedback))) : engine :=
  load_custom_words file (build_vocabulary (fresh no_sym_spell) all_words).

(** [EnhancedAutocorrection.__init__] *)
Definition enhanced_init (sym : SymSpell) (all_words : list string)
    (file : option (list string * gmap string (gmap string feedback)))
    (sc_file : option (gmap string string)) : engine :=
  load_shortcuts sc_file (load_custom_words file (build_vocabulary (fresh sym) all_words)).

(** ** State mutations *)

(** [add_custom_word] *)
Definition add_custom_word (st : engine) (word : string) : engine :=
  let word := Str.lower word in
  Engine ({[word]} ∪ vocabulary st) (<[word := custom_word_prob]> (prob_of_word st))
         (prob_of_bigram st) (prob_of_trigram st)
         ({[word]} ∪ custom_words st) (shortcuts st) (user_feedback st) (sym_spell st).

(** [delete_word] of the custom-word dialog of [enhanced_main_script]. *)
Definition delete_word (st : engine) (word : string) : engine :=
  Engine (vocabulary st ∖ {[word]}) (delete word (prob_of_word st))
         (prob_of_bigram st) (prob_of_trigram st)
         (custom_words st ∖ {[word]}) (shortcuts st) (user_feedback st) (sym_spell st).

Definition set_shortcuts (st : engine) (sc : gmap string string) : engine :=
  Engine (vocabulary st) (prob_of_word st) (prob_of_bigram st) (prob_of_trigram st)
         (custom_words st) sc (user_feedback st) (sym_spell st).

(** [add_shortcut] *)
Definition add_shortcut (st : engine) (shortcut full_word : string) : engine :=
  let shortcut := Str.lower shortcut in
  let full_word := Str.lower full_word in
  let st1 := set_shortcuts st (<[shortcut := full_word]> (shortcuts st)) in
  if decide (full_word ∉ vocabulary st1) then add_custom_word st1 full_word else st1.

(** [remove_shortcut]: the new state and the returned flag. *)
Definition remove_shortcut (st : engine) (shortcut : string) : engine * bool :=
  let shortcut := Str.lower shortcut in
  if decide (shortcut ∈ dom (shortcuts st)) then
    (set_shortcuts st (delete shortcut (shortcuts st)), true)
  else (st, false).

(** [get_shortcut_expansion]: [self.shortcuts.get(word.lower(), None)] *)
Definition get_shortcut_expansion (st : engine) (word : string) : option string :=
  shortcuts st !! Str.lower word.

(** [is_shortcut] *)
Definition is_shortcut (st : engine) (word : string) : bool :=
  bool_decide (Str.lower word ∈ dom (shortcuts st)).

(** The feedback table after [record_user_feedback]. *)
Definition record_feedback (fb : gmap string (gmap string feedback))
    (original_word suggested_word : string) (accept : bool)
    : gmap string (gmap string feedback) :=
  let fb1 := if decide (original_word ∈ dom fb) then fb else <[original_word := ∅]> fb in
  let inner := default ∅ (fb1 !! original_word) in
  let inner1 :=
    if decide (suggested_word ∈ dom inner) then inner
    else <[suggested_word := Feedback 0 0]> inner in
  let r := default (Feedback 0 0) (inner1 !! suggested_word) in
  let r1 := if accept then Feedback (S (accepted r)) (rejected r)
            else Feedback (accepted r) (S (rejected r)) in
  <[original_word := <[suggested_word := r1]> inner1]> fb1.

(** [record_user_feedback] *)
Definition record_user_feedback (st : engine)
    (original_word suggested_word : string) (accept : bool) : engine :=
  Engine (vocabulary st) (prob_of_word st) (prob_of_bigram st) (prob_of_trigram st)
         (custom_words st) (shortcuts st)
         (record_feedback (user_feedback st) original_word suggested_word accept)
         (sym_spell st).

(** ** Scorer: probabilities, context and feedback *)

(** [combined_score] *)
Definition combined_score (st : engine) (suggestion original_word : string) : xreal :=
  let edit_score := custom_score suggestion original_word in
  let prob_score := X.opp (np_log (default prob_floor (prob_of_word st !! suggestion))) in
  X.add (X.of_Z edit_score) prob_score.

(** [l[-k]] for [1 <= k <= len(l)] *)
Definition from_end (l : list string) (k : nat) : string :=
  default EmptyString (l !! (length l - k)%nat).

(** The feedback term of [context_aware_score] and [enhanced_context_score]. *)
Definition feedback_score (fb : gmap string (gmap string feedback))
    (original_word suggestion : string) : xreal :=
  match fb !! original_word with
  | Some inner =>
      match inner !! suggestion with
      | Some r =>
          let total := (accepted r + rejected r)%nat in
          if decide (0 < total)%nat then
            let acceptance_rate := (Qc_of_nat (accepted r) / Qc_of_nat total)%Qc in
            X.scale (X.opp (np_log (1 - acceptance_rate)%Qc)) (3 / 2)
          else Fin 0
      | None => Fin 0
      end
  | None => Fin 0
  end.

(** The n-gram term of the two context scores, with its two coefficients. *)
Definition ngram_score (st : engine) (kb kt : R)
    (suggestion : string) (previous_words : list string) : xreal :=
  let context_score := Fin 0 in
  let context_score :=
    if decide (1 ≤ length previous_words)%nat then
      let bigram_prob :=
        default prob_floor (prob_of_bigram st !! (from_end previous_words 1, suggestion)) in
      X.add context_score (X.scale (X.opp (np_log bigram_prob)) kb)
    else context_score in
  if decide (2 ≤ length previous_words)%nat then
    let trigram_prob :=
      default prob_floor
        (prob_of_trigram st !! (from_end previous_words 2, from_end previous_words 1, suggestion)) in
    X.add context_score (X.scale (X.opp (np_log trigram_prob)) kt)
  else context_score.

Definition custom_bonus (st : engine) (suggestion : string) : xreal :=
  if decide (suggestion ∈ custom_words st) then Fin (-3) else Fin 0.

(** [HybridAutocorrection.context_aware_score] *)
Definition context_aware_score (st : engine)
    (suggestion original_word : string) (previous_words : list string) : xreal :=
  let base_score := combined_score st suggestion original_word in
  X.add (X.add (X.add base_score (ngram_score st 2 3 suggestion previous_words))
               (feedback_score (user_feedback st) original_word suggestion))
        (custom_bonus st suggestion).

(** [EnhancedAutocorrection.enhanced_context_score] *)
Definition enhanced_context_score (st : engine)
    (suggestion original_word : string) (previous_words : list string) : xreal :=
  let base_score := X.scale (combined_score st suggestion original_word) 2 in
  X.add (X.add (X.add base_score (ngram_score st (1 / 2) 1 suggestion previous_words))
               (feedback_score (user_feedback st) original_word suggestion))
        (custom_bonus st suggestion).

(** [get_context_probability] *)
Definition get_context_probability (st : engine)
    (word : string) (previous_words : list string) : Qc :=
  let from_trigram :=
    if decide (2 ≤ length previous_words)%nat then
      let trigram_prob :=
        default 0%Qc
          (prob_of_trigram st !! (from_end previous_words 2, from_end previous_words 1, word)) in
      if decide (0 < trigram_prob)%Qc then Some trigram_prob else None
    else None in
  match from_trigram with
  | Some trigram_prob => trigram_prob
  | None =>
      if decide (1 ≤ length previous_words)%nat then
        default 0%Qc (prob_of_bigram st !! (from_end previous_words 1, word))
      else 0%Qc
  end.

(** The homophone table of [should_use_context]. *)
Definition context_words : gset string :=
  list_to_set
    ["there"; "their"; "they're"; "your"; "you're"; "its"; "it's"; "to"; "too"; "two";
     "where"; "wear"; "were"; "here"; "hear"; "right"; "write"; "know"; "no"; "new"; "knew"].

(** [should_use_context] *)
Definition should_use_context (word : string) (previous_words : list string) : bool :=
  bool_decide (Str.lower word ∈ context_words) && bool_decide (1 ≤ length previous_words)%nat.

(** ** Sorting

    [list.sort(key=...)] is stable: elements with equal keys keep their
    order, and an element moves in front of another only when its key is
    strictly smaller. *)
Section sorting.
Context {A : Type} (key : A → xreal).

Fixpoint insert_by_key (x : A) (l : list A) : list A :=
  match l with
  | [] => [x]
  | y :: l' => if X.ltb (key y) (key x) then y :: insert_by_key x l' else x :: l
  end.

Definition sort_by_key (l : list A) : list A := foldr insert_by_key [] l.
End sorting.

(** ** Results *)

(** The tuples the engines return: [(w, p)], [(w, p, c)] and [(w, p, c, info)]. *)
Inductive row : Type :=
  | Row2 (w : string) (p : Qc)
  | Row3 (w : string) (p c : Qc)
  | Row4 (w : string) (p c : Qc) (info : string).

(** A call returns a value or raises the [KeyError] of a failed
    [self.prob_of_word[w]]. *)
Inductive outcome (A : Type) : Type :=
  | Returns (a : A)
  | KeyError (k : string).
Arguments Returns {A} a.
Arguments KeyError {A} k.

Definition obind {A B} (m : outcome A) (f : A → outcome B) : outcome B :=
  match m with
  | Returns a => f a
  | KeyError k => KeyError k
  end.

Notation "x ←! m ; f" := (obind m (λ x, f))
  (at level 20, m at level 100, f at level 200, right associativity, only parsing).

(** [self.prob_of_word[w]] *)
Definition prob_at (st : engine) (w : string) : outcome Qc :=
  match prob_of_word st !! w with
  | Some p => Returns p
  | None => KeyError w
  end.

(** A list comprehension whose element expression may raise. *)
Fixpoint comprehension {A B} (f : A → outcome B) (l : list A) : outcome (list B) :=
  match l with
  | [] => Returns []
  | x :: l' => y ←! f x; ys ←! comprehension f l'; Returns (y :: ys)
  end.

(** ** Correction pipelines

    The three classes share the shape of their pipeline; it is written
    once over the candidate generator [gen], which the engines instantiate
    with [candidates]. *)
Section pipelines.
Variable gen : string → gset string.

(** [[w for w in suggestions if w in self.vocabulary]] *)
Definition best_guesses_over (st : engine) (word : string) : list string :=
  filter (λ w, w ∈ vocabulary st) (elements (gen word)).

(** [Autocorrection.correct_spelling]; [None] is the bare [return]. *)
Definition correct_spelling_over (st : engine) (word : string)
    : outcome (option (list row)) :=
  if decide (word ∈ vocabulary st) then Returns None
  else
    let best_guesses := best_guesses_over st word in
    match best_guesses with
    | [] => Returns (Some [Row3 word 0 0])
    | _ =>
        let best_guesses := sort_by_key (λ w, combined_score st w word) best_guesses in
        rows ←! comprehension (λ w, p ←! prob_at st w; Returns (Row2 w p)) best_guesses;
        Returns (Some rows)
    end.

(** The sort key [context_score] of [correct_spelling_with_context]. *)
Definition context_score (st : engine) (previous_word word w : string) : xreal :=
  let edit_score := combined_score st w word in
  let unigram_score := X.opp (np_log (default prob_floor (prob_of_word st !! w))) in
  let bigram_score :=
    match previous_word with
    | EmptyString => Fin 0
    | _ => X.opp (np_log (default prob_floor (prob_of_bigram st !! (previous_word, w))))
    end in
  X.add (X.add edit_score unigram_score) (X.scale bigram_score 10).

(** [Autocorrection.correct_spelling_with_context] *)
Definition correct_spelling_with_context_over (st : engine)
    (previous_word word : string) : outcome (list row) :=
  if decide (word ∈ vocabulary st) then
    p ←! prob_at st word;
    Returns [Row3 word p (default 0%Qc (prob_of_bigram st !! (previous_word, word)))]
  else
    let best_guesses := best_guesses_over st word in
    match best_guesses with
    | [] => Returns [Row3 word 0 0]
    | _ =>
        let best_guesses := sort_by_key (context_score st previous_word word) best_guesses in
        comprehension
          (λ w, p ←! prob_at st w;
                Returns (Row3 w p (default 0%Qc (prob_of_bigram st !! (previous_word, w)))))
          best_guesses
    end.

(** [HybridAutocorrection.correct_spelling_hybrid] *)
Definition correct_spelling_hybrid_over (st : engine)
    (previous_words : list string) (word : string) : outcome (list row) :=
  if decide (word ∈ vocabulary st) then
    p ←! prob_at st word; Returns [Row3 word p 1]
  else
    let best_guesses := best_guesses_over st word in
    match best_guesses with
    | [] => Returns [Row3 word 0 0]
    | _ =>
        let best_guesses :=
          if should_use_context word previous_words then
            sort_by_key (λ w, context_aware_score st w word previous_words) best_guesses
          else
            sort_by_key (λ w, combined_score st w word) best_guesses in
        comprehension
          (λ w, p ←! prob_at st w;
                Returns (Row3 w p (get_context_probability st w previous_words)))
          (take 5 best_guesses)
    end.
End pipelines.

Definition correct_spelling : engine → string → outcome (option (list row)) :=
  correct_spelling_over candidates.

Definition correct_spelling_with_context : engine → string → string → outcome (list row) :=
  correct_spelling_with_context_over candidates.

Definition correct_spelling_hybrid : engine → list string → string → outcome (list row) :=
  correct_spelling_hybrid_over candidates.

(** [EnhancedAutocorrection.correct_spelling_enhanced]; a string is true
    in a condition when it is not empty. *)
Definition correct_spelling_enhanced (st : engine)
    (previous_words : list string) (word : string) : list row :=
  let shortcut_expansion := get_shortcut_expansion st word in
  match shortcut_expansion with
  | Some (String _ _ as expansion) => [Row4 expansion 1 1 "Shortcut expansion"]
  | _ =>
      if decide (word ∈ sym_words (sym_spell st)) then [Row4 word 1 1 "SymSpellPy"]
      else
        let symspell_suggestions := sym_lookup (sym_spell st) word in
        match symspell_suggestions with
        | [] => [Row4 word 0 0 "No suggestion"]
        | _ =>
            map (λ suggestion, Row4 suggestion.1 (Qc_of_Z suggestion.2) 1 "SymSpellPy")
                (take 5 symspell_suggestions)
        end
  end.

(** ** Reachable engine states *)

(** The states an engine object goes through: built by a constructor, then
    changed by the public mutators.  A hybrid engine starts as an enhanced
    one without SymSpell dictionary and shortcut file. *)
Inductive reachable : engine → Prop :=
  | reach_plain_init words :
      reachable (plain_init words)
  | reach_init sym all_words file sc_file :
      reachable (enhanced_init sym all_words file sc_file)
  | reach_add_custom_word st word :
      reachable st → reachable (add_custom_word st word)
  | reach_delete_word st word :
      reachable st → reachable (delete_word st word)
  | reach_add_shortcut st shortcut full_word :
      reachable st → reachable (add_shortcut st shortcut full_word)
  | reach_remove_shortcut st shortcut :
      reachable st → reachable (remove_shortcut st shortcut).1
  | reach_record_user_feedback st o s accept :
      reachable st → reachable (record_user_feedback st o s accept).

(** ** Invariants, samples and feedback records *)

(** Every vocabulary member has a stored probability, so
    [self.prob_of_word[w]] cannot fail on one. *)
Definition consistent (st : engine) : Prop :=
  ∀ w, w ∈ vocabulary st → is_Some (prob_of_word st !! w).

(** Stored trigram probabilities are positive. *)
Definition positive_trigrams (st : engine) : Prop :=
  ∀ k p, prob_of_trigram st !! k = Some p → (0 < p)%Qc.

(** Sample engines. *)
Definition sample_engine : engine :=
  enhanced_init no_sym_spell
    ["the"; "quick"; "brown"; "fox"; "the"; "quick"; "red"; "fox"] None None.

(** A SymSpell object that knows no word and answers every lookup with
    the unknown word itself at count 0, as [include_unknown=True] does. *)
Definition unknown_only : SymSpell :=
  {| sym_words := ∅; sym_lookup := λ w, [(w, 0%Z)] |}.

Definition two_word_engine : engine := hybrid_init ["hello"; "world"] None.

Definition rhyme_words : list string := ["bat"; "cat"; "hat"; "mat"; "rat"; "sat"].

(** [self.user_feedback[original][suggested]], when both keys exist. *)
Definition feedback_record (fb : gmap string (gmap string feedback))
    (original_word suggested_word : string) : option feedback :=
  inner ← fb !! original_word; inner !! suggested_word.

(** The acceptance rate the scoring functions compute for a record:
    accepted / (accepted + rejected), and nothing for an empty record. *)
Definition acceptance_rate (r : feedback) : option Qc :=
  let total := (accepted r + rejected r)%nat in
  if decide (0 < total)%nat then Some (Qc_of_nat (accepted r) / Qc_of_nat total)%Qc
  else None.

(** The counters after one more answer. *)
Definition bump (accept : bool) (r : feedback) : feedback :=
  if accept then Feedback (S (accepted r)) (rejected r)
  else Feedback (accepted r) (S (rejected r)).

(** ** Persistence and result rows *)

(** The content [save_custom_words] writes to [custom_words.json]:
    [{'words': list(self.custom_words), 'feedback': self.user_feedback}],
    in the shape [load_custom_words] reads. *)
Definition save_custom_words (st : engine)
    : list string * gmap string (gmap string feedback) :=
  (elements (custom_words st), user_feedback st).

(** The content [save_shortcuts] writes to [shortcuts.json]. *)
Definition save_shortcuts (st : engine) : gmap string string := shortcuts st.

(** The first component of a result tuple, [corrections[i][0]]. *)
Definition row_word (r : row) : string :=
  match r with
  | Row2 w _ | Row3 w _ _ | Row4 w _ _ _ => w
  end.

(** The second component of a result tuple. *)
Definition row_prob (r : row) : Qc :=
  match r with
  | Row2 _ p | Row3 _ p _ | Row4 _ p _ _ => p
  end.

(** ** Frequencies *)

(** [items.count(k)]: the number of occurrences of [k] in the list. *)
Definition occurrences `{EqDecision K} (k : K) (items : list K) : nat :=
  length (filter (λ x, x = k) items).

(** Every stored probability of the three tables lies in (0, 1]. *)
Definition unit_probabilities (st : engine) : Prop :=
  (∀ w p, prob_of_word st !! w = Some p → (0 < p)%Qc ∧ (p <= 1)%Qc)
  ∧ (∀ bg p, prob_of_bigram st !! bg = Some p → (0 < p)%Qc ∧ (p <= 1)%Qc)
  ∧ (∀ tg p, prob_of_trigram st !! tg = Some p → (0 < p)%Qc ∧ (p <= 1)%Qc).

(** ** Rank order *)

(** [x] may stand in front of [y] in a list sorted by ascending key: the
    key of [y] is not strictly below the key of [x]. *)
Definition not_above {A : Type} (key : A → xreal) (x y : A) : Prop :=
  ¬ X.lt (key y) (key x).

(** The key of the sort [correct_spelling_hybrid] performs: the context
    score for a homophone with preceding words, the combined score
    otherwise. *)
Definition hybrid_sort_key (st : engine) (previous_words : list string)
    (word w : string) : xreal :=
  if should_use_context word previous_words
  then context_aware_score st w word previous_words
  else combined_score st w word.

(** * Properties *)

(** ** The embedding on small inputs *)

Example lower_mixed_case : Str.lower "BcZ" = "bcz".
Proof. reflexivity. Qed.

Example splits_ab : Str.splits "ab" = [("", "ab"); ("a", "b"); ("ab", "")].
Proof. reflexivity. Qed.

Example edit1_helo_has_hello : "hello" ∈ edit1 "helo".
Proof. apply (bool_decide_unpack _). vm_compute. exact I. Qed.

Example edit1_of_one_letter_size : size (edit1 "a") = 78%nat.
Proof. by vm_compute. Qed.

Example nltk_trigrams_four :
  nltk_trigrams ["a"; "b"; "c"; "d"] = [("a", "b", "c"); ("b", "c", "d")].
Proof. reflexivity. Qed.

Example Counter_counts : Counter ["a"; "b"; "a"] !! "a" = Some 2%nat.
Proof. by vm_compute. Qed.

Example enhanced_unknown_word :
  correct_spelling_enhanced
    (enhanced_init unknown_only ["hello"; "world"] None None) [] "helo"
  = [Row4 "helo" (Qc_of_Z 0) 1 "SymSpellPy"].
Proof.
  unfold correct_spelling_enhanced.
  rewrite decide_False by (simpl; set_solver). reflexivity.
Qed.

(** ** Counters and probabilities *)

Section counting_facts.
Context `{Countable K}.
Implicit Types (m : gmap K nat) (l : list K).

Lemma sum_counts_empty : sum_counts (∅ : gmap K nat) = 0%nat.
Proof. apply map_fold_empty. Qed.

Lemma sum_counts_insert_fresh m k c :
  m !! k = None → sum_counts (<[k := c]> m) = (c + sum_counts m)%nat.
Proof.
  intros Hk. unfold sum_counts.
  rewrite map_fold_insert_L; [done | intros; lia | done].
Qed.

Lemma sum_counts_delete m k c :
  m !! k = Some c → sum_counts m = (c + sum_counts (delete k m))%nat.
Proof.
  intros Hk. rewrite <- (insert_delete_id m k c) at 1 by done.
  apply sum_counts_insert_fresh, lookup_delete_eq.
Qed.

Lemma sum_counts_incr m k :
  sum_counts (<[k := S (default 0%nat (m !! k))]> m) = S (sum_counts m).
Proof.
  destruct (m !! k) as [c|] eqn:Hk; simpl.
  - rewrite (sum_counts_delete m k c) by done.
    rewrite <- insert_delete_eq.
    rewrite sum_counts_insert_fresh by apply lookup_delete_eq. lia.
  - by rewrite sum_counts_insert_fresh.
Qed.

Lemma sum_counts_lookup_le m k c : m !! k = Some c → (c ≤ sum_counts m)%nat.
Proof. intros Hk. rewrite (sum_counts_delete m k c) by done. lia. Qed.

Lemma sum_counts_count_from l m :
  sum_counts (count_from m l) = (sum_counts m + length l)%nat.
Proof.
  revert m. induction l as [|k l IH]; intros m; simpl; [lia|].
  rewrite IH, sum_counts_incr. lia.
Qed.

Lemma count_from_positive l m :
  (∀ k c, m !! k = Some c → 0 < c)%nat →
  (∀ k c, count_from m l !! k = Some c → 0 < c)%nat.
Proof.
  revert m. induction l as [|a l IH]; intros m Hm; simpl; [done|].
  apply IH. intros k c. destruct (decide (a = k)) as [->|Hne].
  - rewrite lookup_insert_eq. intros [= <-]. lia.
  - rewrite lookup_insert_ne by done. apply Hm.
Qed.

Lemma dom_count_from l m : dom (count_from m l) = dom m ∪ list_to_set l.
Proof.
  revert m. induction l as [|a l IH]; intros m; simpl.
  - set_solver.
  - rewrite IH, dom_insert_L. set_solver.
Qed.

Lemma sum_counts_Counter l : sum_counts (Counter l) = length l.
Proof.
  unfold Counter. fold (count_from ∅ l).
  by rewrite sum_counts_count_from, sum_counts_empty.
Qed.

Lemma Counter_positive l k c : Counter l !! k = Some c → (0 < c)%nat.
Proof.
  unfold Counter. fold (count_from ∅ l). apply count_from_positive.
  intros k' c'. by rewrite lookup_empty.
Qed.

Lemma dom_Counter l : dom (Counter l) = list_to_set l.
Proof.
  unfold Counter. fold (count_from ∅ l). rewrite dom_count_from, dom_empty_L.
  set_solver.
Qed.

Lemma dom_probabilities m : dom (probabilities m) = dom m.
Proof. unfold probabilities. apply dom_fmap_L. Qed.
End counting_facts.

Lemma Qc_of_nat_plus (a b : nat) : Qc_of_nat (a + b) = (Qc_of_nat a + Qc_of_nat b)%Qc.
Proof. unfold Qc_of_nat. by rewrite Nat2Z.inj_add, Z2Qc_inj_add. Qed.

Lemma Qc_of_nat_pos (a : nat) : (0 < a)%nat → (0 < Qc_of_nat a)%Qc.
Proof.
  intros Ha. unfold Qc_of_nat. rewrite <- Z2Qc_inj_0.
  apply (proj1 (Z2Qc_inj_lt 0 (Z.of_nat a))). lia.
Qed.

Lemma Qc_of_nat_lt (a b : nat) : (a < b)%nat → (Qc_of_nat a < Qc_of_nat b)%Qc.
Proof.
  intros Hab. unfold Qc_of_nat.
  apply (proj1 (Z2Qc_inj_lt (Z.of_nat a) (Z.of_nat b))). lia.
Qed.

Lemma Qcdiv_pos (a b : Qc) : (0 < a → 0 < b → 0 < a / b)%Qc.
Proof. intros Ha Hb. unfold Qcdiv. apply Qcmult_pos_pos; [done|]. by apply Qcinv_pos. Qed.

Lemma Qcdiv_diag (a : Qc) : a ≠ 0%Qc → (a / a)%Qc = 1%Qc.
Proof. intros Ha. unfold Qcdiv. by apply Qcmult_inv_r. Qed.

Section probability_facts.
Context `{Countable K}.
Implicit Types (m : gmap K nat) (probs : gmap K Qc).

Lemma sum_probs_empty : sum_probs (∅ : gmap K Qc) = 0%Qc.
Proof. apply map_fold_empty. Qed.

Lemma sum_probs_insert_fresh probs k p :
  probs !! k = None → sum_probs (<[k := p]> probs) = (p + sum_probs probs)%Qc.
Proof.
  intros Hk. unfold sum_probs.
  rewrite map_fold_insert_L; [done | intros; ring | done].
Qed.

Lemma sum_probs_delete probs k p :
  probs !! k = Some p → sum_probs probs = (p + sum_probs (delete k probs))%Qc.
Proof.
  intros Hk. rewrite <- (insert_delete_id probs k p) at 1 by done.
  apply sum_probs_insert_fresh, lookup_delete_eq.
Qed.

(** Overwriting an entry replaces its share of the sum. *)
Lemma sum_probs_insert probs k p :
  sum_probs (<[k := p]> probs)
  = (sum_probs probs - default 0 (probs !! k) + p)%Qc.
Proof.
  destruct (probs !! k) as [q|] eqn:Hk; simpl.
  - rewrite (sum_probs_delete probs k q) by done.
    rewrite <- insert_delete_eq.
    rewrite sum_probs_insert_fresh by apply lookup_delete_eq. ring.
  - rewrite sum_probs_insert_fresh by done. ring.
Qed.

Lemma sum_probs_scaled m (t : Qc) :
  sum_probs ((λ c, Qc_of_nat c / t)%Qc <$> m) = (Qc_of_nat (sum_counts m) / t)%Qc.
Proof.
  induction m as [|k c m Hk IH] using map_ind.
  - rewrite fmap_empty, sum_probs_empty, sum_counts_empty.
    change (Qc_of_nat 0) with (Qc_of_Z 0). rewrite Z2Qc_inj_0. unfold Qcdiv. ring.
  - rewrite fmap_insert, sum_probs_insert_fresh by (by rewrite lookup_fmap, Hk).
    rewrite sum_counts_insert_fresh, IH, Qc_of_nat_plus by done.
    unfold Qcdiv. ring.
Qed.

(** The derived probabilities of a non-empty counter sum to one. *)
Lemma sum_probs_probabilities m :
  (0 < sum_counts m)%nat → sum_probs (probabilities m) = 1%Qc.
Proof.
  intros Hpos. unfold probabilities. rewrite sum_probs_scaled.
  apply Qcdiv_diag. apply Qc_of_nat_pos in Hpos.
  intros Heq. rewrite Heq in Hpos. by apply (irreflexivity Qclt 0%Qc).
Qed.

(** Every derived probability of a counter is positive. *)
Lemma probabilities_positive (l : list K) k p :
  probabilities (Counter l) !! k = Some p → (0 < p)%Qc.
Proof.
  unfold probabilities. rewrite lookup_fmap.
  destruct (Counter l !! k) as [c|] eqn:Hk; simpl; [|done].
  intros [= <-]. pose proof (Counter_positive _ _ _ Hk) as Hc.
  pose proof (sum_counts_lookup_le _ _ _ Hk) as Hle.
  apply Qcdiv_pos; apply Qc_of_nat_pos; lia.
Qed.
End probability_facts.

(** ** Invariants of the reachable states *)

Lemma hybrid_init_enhanced all_words file :
  hybrid_init all_words file = enhanced_init no_sym_spell all_words file None.
Proof. reflexivity. Qed.

Lemma build_vocabulary_consistent sym all_words :
  consistent (build_vocabulary (fresh sym) all_words).
Proof.
  intros w. simpl. rewrite <- elem_of_dom, dom_probabilities, dom_Counter. set_solver.
Qed.

Lemma load_custom_words_consistent file st :
  consistent st → consistent (load_custom_words file st).
Proof. by destruct file as [[words fb]|]. Qed.

Lemma load_shortcuts_consistent file st :
  consistent st → consistent (load_shortcuts file st).
Proof. by destruct file. Qed.

Lemma add_custom_word_consistent st word :
  consistent st → consistent (add_custom_word st word).
Proof.
  intros Hst w. simpl. destruct (decide (Str.lower word = w)) as [->|Hne].
  - rewrite lookup_insert_eq. eauto.
  - rewrite lookup_insert_ne by done. intros Hw. apply Hst. set_solver.
Qed.

Lemma add_shortcut_consistent st shortcut full_word :
  consistent st → consistent (add_shortcut st shortcut full_word).
Proof.
  intros Hst. unfold add_shortcut. case_decide; [|done].
  by apply add_custom_word_consistent.
Qed.

Lemma remove_shortcut_consistent st shortcut :
  consistent st → consistent (remove_shortcut st shortcut).1.
Proof. intros Hst. unfold remove_shortcut. by case_decide. Qed.

Lemma reachable_consistent st : reachable st → consistent st.
Proof.
  induction 1 as [words|sym all_words file sc_file|st word _ IH|st word _ IH
                 |st sc fw _ IH|st sc _ IH|st o s a _ IH].
  - intros w. simpl. rewrite <- elem_of_dom, dom_probabilities, dom_Counter. done.
  - apply load_shortcuts_consistent, load_custom_words_consistent,
      build_vocabulary_consistent.
  - by apply add_custom_word_consistent.
  - intros w. simpl. rewrite elem_of_difference, elem_of_singleton.
    intros [Hw Hne]. rewrite lookup_delete_ne by done. by apply IH.
  - by apply add_shortcut_consistent.
  - by apply remove_shortcut_consistent.
  - exact IH.
Qed.

Lemma reachable_positive_trigrams st : reachable st → positive_trigrams st.
Proof.
  induction 1 as [words|sym all_words file sc_file|st word _ IH|st word _ IH
                 |st sc fw _ IH|st sc _ IH|st o s a _ IH]; try exact IH.
  - intros k p. simpl. by rewrite lookup_empty.
  - destruct file as [[ws fb]|], sc_file; intros k p; simpl;
      apply probabilities_positive.
  - unfold add_shortcut. by case_decide.
  - unfold remove_shortcut. by case_decide.
Qed.

(** ** Structural score *)

Example levenshtein_kitten : levenshtein "kitten" "sitting" = 3%nat.
Proof. reflexivity. Qed.

Example custom_score_samples :
  custom_score "help" "helo" = 2%Z ∧ custom_score "hello" "helo" = 3%Z
  ∧ custom_score "hel" "helo" = 3%Z ∧ custom_score "he" "helo" = 8%Z.
Proof. repeat split; reflexivity. Qed.

(** C4: [custom_score] classifies by the length difference of candidate and
    original.  Equal lengths: distance times 1 plus the original length
    minus the common prefix length.  Candidate one longer: distance times 2
    plus the same prefix term.  Candidate one shorter: distance times 3.
    Any other difference: distance times 4.  The distance is the
    Levenshtein distance. *)
Theorem custom_score_by_length_delta (candidate original : string) :
  let distance := Z.of_nat (levenshtein candidate original) in
  let prefix_deficit := (len original - common_prefix_length candidate original)%Z in
  (len candidate = len original →
     custom_score candidate original = (distance * 1 + prefix_deficit)%Z)
  ∧ (len candidate = (len original + 1)%Z →
     custom_score candidate original = (distance * 2 + prefix_deficit)%Z)
  ∧ (len candidate = (len original - 1)%Z →
     custom_score candidate original = (distance * 3)%Z)
  ∧ (len candidate ≠ len original → len candidate ≠ (len original + 1)%Z →
     len candidate ≠ (len original - 1)%Z →
     custom_score candidate original = (distance * 4)%Z).
Proof.
  intros distance prefix_deficit. unfold custom_score, editdistance_eval.
  fold distance. repeat split.
  - intros Heq. by rewrite (proj2 (Z.eqb_eq _ _) Heq).
  - intros Heq. rewrite (proj2 (Z.eqb_neq _ _)) by lia.
    by rewrite (proj2 (Z.eqb_eq _ _) Heq).
  - intros Heq. rewrite !(proj2 (Z.eqb_neq _ _)) by lia.
    by rewrite (proj2 (Z.eqb_eq _ _) Heq).
  - intros H0 H1 H2. by rewrite !(proj2 (Z.eqb_neq _ _)) by done.
Qed.

Lemma custom_score_by_length_delta_witness :
  custom_score "help" "helo" = 2%Z ∧ custom_score "hello" "helo" = 3%Z
  ∧ custom_score "hel" "helo" = 3%Z ∧ custom_score "he" "helo" = 8%Z.
Proof.
  split; [|split; [|split]].
  - apply (proj1 (custom_score_by_length_delta "help" "helo")). reflexivity.
  - apply (proj1 (proj2 (custom_score_by_length_delta "hello" "helo"))). reflexivity.
  - apply (proj1 (proj2 (proj2 (custom_score_by_length_delta "hel" "helo")))). reflexivity.
  - apply (proj2 (proj2 (proj2 (custom_score_by_length_delta "he" "helo")))); vm_compute; discriminate.
Defined.

(** ** Shortcut table *)

(** C8: [remove_shortcut] returns true exactly when the table had a mapping
    for the (lower-cased) shortcut, and then that mapping is gone; on a
    shortcut without mapping it returns false and the state is the same;
    adding a shortcut twice leaves the second expansion in the table. *)
Theorem remove_shortcut_true_iff_mapped (st : engine) (short : string) :
  ((remove_shortcut st short).2 = true ↔ is_Some (shortcuts st !! Str.lower short))
  ∧ ((remove_shortcut st short).2 = true →
       shortcuts (remove_shortcut st short).1 = delete (Str.lower short) (shortcuts st)
       ∧ get_shortcut_expansion (remove_shortcut st short).1 short = None)
  ∧ (shortcuts st !! Str.lower short = None →
       remove_shortcut st short = (st, false))
  ∧ (∀ full1 full2,
       shortcuts (add_shortcut (add_shortcut st short full1) short full2)
       = <[Str.lower short := Str.lower full2]> (shortcuts st)
       ∧ get_shortcut_expansion (add_shortcut (add_shortcut st short full1) short full2) short
         = Some (Str.lower full2)).
Proof.
  unfold remove_shortcut, get_shortcut_expansion.
  split; [|split; [|split]].
  - case_decide as Hin; simpl.
    + split; [intros _; by apply elem_of_dom | done].
    + split; [done|]. intros Hsome. by apply elem_of_dom in Hsome.
  - case_decide; simpl; [|done]. intros _. split; [done|]. apply lookup_delete_eq.
  - intros Hnone. rewrite decide_False; [done|].
    rewrite elem_of_dom, Hnone. apply is_Some_None.
  - intros full1 full2. unfold add_shortcut.
    repeat case_decide; simpl; by rewrite insert_insert_eq, lookup_insert_eq.
Qed.

Lemma remove_shortcut_true_iff_mapped_witness :
  let st := add_shortcut (enhanced_init no_sym_spell ["because"; "morning"] None None)
                         "BCZ" "because" in
  (remove_shortcut st "bcz").2 = true
  ∧ get_shortcut_expansion (remove_shortcut st "bcz").1 "bcz" = None
  ∧ remove_shortcut st "mrn" = (st, false).
Proof.
  intros st.
  pose proof (remove_shortcut_true_iff_mapped st "bcz") as (Hiff & Hgone & _).
  pose proof (remove_shortcut_true_iff_mapped st "mrn") as (_ & _ & Hnoop & _).
  assert (Htrue : (remove_shortcut st "bcz").2 = true).
  { apply Hiff. by exists "because". }
  split; [exact Htrue|]. split; [exact (proj2 (Hgone Htrue))|].
  apply Hnoop. reflexivity.
Defined.

(** ** Context probability *)

Lemma from_end_1 (pre : list string) (b : string) : from_end (pre ++ [b]) 1 = b.
Proof.
  unfold from_end. rewrite length_app; simpl.
  rewrite (list_lookup_middle pre [] b) by lia. done.
Qed.

Lemma from_end_2 (pre : list string) (a b : string) :
  from_end (pre ++ [a; b]) 2 = a ∧ from_end (pre ++ [a; b]) 1 = b.
Proof.
  unfold from_end. rewrite length_app; simpl. split.
  - rewrite (list_lookup_middle pre [b] a) by lia. done.
  - rewrite lookup_app_r by lia.
    replace (length pre + 2 - 1 - length pre)%nat with 1%nat by lia. done.
Qed.

(** C7: [get_context_probability] returns the trigram probability of
    (second to last, last, word) when two preceding tokens exist and that
    probability is not zero; otherwise the bigram probability of (last,
    word) when one preceding token exists; otherwise 0.  A missing table
    entry counts as probability 0. *)
Theorem get_context_probability_prefers_trigram
    (st : engine) (word : string) (previous_words : list string) :
  reachable st →
  let trigram (a b : string) := default 0%Qc (prob_of_trigram st !! (a, b, word)) in
  let bigram (b : string) := default 0%Qc (prob_of_bigram st !! (b, word)) in
  (∀ (pre : list string) (a b : string),
     previous_words = (pre ++ [a; b])%list → trigram a b ≠ 0%Qc →
     get_context_probability st word previous_words = trigram a b)
  ∧ (∀ (pre : list string) (b : string), previous_words = (pre ++ [b])%list →
       (∀ (pre' : list string) (a : string), pre = (pre' ++ [a])%list →
          trigram a b = 0%Qc) →
       get_context_probability st word previous_words = bigram b)
  ∧ (previous_words = [] → get_context_probability st word previous_words = 0%Qc).
Proof.
  intros Hreach trigram bigram.
  pose proof (reachable_positive_trigrams st Hreach) as Hpos.
  split; [|split].
  - intros pre a b -> Hne. unfold get_context_probability.
    destruct (from_end_2 pre a b) as [-> ->].
    rewrite decide_True by (rewrite length_app; simpl; lia).
    fold (trigram a b). rewrite decide_True; [done|].
    unfold trigram in *. destruct (prob_of_trigram st !! (a, b, word)) as [p|] eqn:Hp.
    + simpl. by apply (Hpos _ _ Hp).
    + by simpl in Hne.
  - intros pre b -> Hzero. unfold get_context_probability.
    rewrite from_end_1.
    assert (Hlen1 : (1 ≤ length (pre ++ [b])%list)%nat)
      by (rewrite length_app; simpl; lia).
    destruct (decide (2 ≤ length (pre ++ [b])%list)%nat) as [Hlen|Hlen].
    + destruct (exists_last (l := pre)) as (pre' & a & ->).
      { intros ->. simpl in Hlen. lia. }
      assert (Heq : ((pre' ++ [a]) ++ [b] = pre' ++ [a; b])%list)
        by by rewrite <- app_assoc.
      rewrite Heq. destruct (from_end_2 pre' a b) as [-> _].
      fold (trigram a b). rewrite (Hzero pre' a eq_refl).
      rewrite decide_False by apply (irreflexivity Qclt).
      rewrite <- Heq. by rewrite decide_True.
    + by rewrite decide_True.
  - intros ->. reflexivity.
Qed.

Lemma Qc_neq_by_this (p q : Qc) : this p ≠ this q → p ≠ q.
Proof. intros Hne ->. by apply Hne. Qed.

Lemma get_context_probability_prefers_trigram_witness :
  get_context_probability sample_engine "brown" ["say"; "the"; "quick"]
  = default 0%Qc (prob_of_trigram sample_engine !! ("the", "quick", "brown"))
  ∧ get_context_probability sample_engine "fox" ["red"]
    = default 0%Qc (prob_of_bigram sample_engine !! ("red", "fox"))
  ∧ get_context_probability sample_engine "fox" [] = 0%Qc.
Proof.
  pose proof (get_context_probability_prefers_trigram sample_engine "brown"
                ["say"; "the"; "quick"] (reach_init _ _ _ _)) as (Htri & _ & _).
  pose proof (get_context_probability_prefers_trigram sample_engine "fox"
                ["red"] (reach_init _ _ _ _)) as (_ & Hbi & _).
  pose proof (get_context_probability_prefers_trigram sample_engine "fox"
                [] (reach_init _ _ _ _)) as (_ & _ & Hnil).
  split; [|split].
  - apply (Htri ["say"] "the" "quick" eq_refl).
    apply Qc_neq_by_this. vm_compute. discriminate.
  - apply (Hbi [] "red" eq_refl). intros [|? ?] a Heq; simplify_eq.
  - by apply Hnil.
Defined.

(** ** Shortcuts in the enhanced pipeline *)

(** C2, as amended: a shortcut whose stored expansion is not the empty
    string makes [correct_spelling_enhanced] return exactly the expansion,
    whatever the vocabulary, the SymSpell dictionary and the preceding
    tokens are. *)
Theorem shortcut_short_circuits
    (st : engine) (previous_words : list string) (word expansion : string) :
  get_shortcut_expansion st word = Some expansion →
  expansion ≠ EmptyString →
  correct_spelling_enhanced st previous_words word
  = [Row4 expansion 1 1 "Shortcut expansion"].
Proof.
  intros Hexp Hne. unfold correct_spelling_enhanced. rewrite Hexp.
  by destruct expansion.
Qed.

Lemma shortcut_short_circuits_witness :
  let st := add_shortcut (enhanced_init unknown_only ["bcz"; "because"] None None)
                         "bcz" "because" in
  "bcz" ∈ vocabulary st
  ∧ correct_spelling_enhanced st ["good"; "morning"] "BCZ"
    = [Row4 "because" 1 1 "Shortcut expansion"].
Proof.
  intros st. split.
  - apply (bool_decide_unpack _). vm_compute. exact I.
  - apply shortcut_short_circuits; [reflexivity | discriminate].
Defined.

(** C2 as stated fails: a shortcut registered with the empty string as
    expansion is a registered shortcut, and the pipeline falls through
    to SymSpell. *)
Lemma empty_expansion_falls_through :
  let st := add_shortcut (enhanced_init unknown_only ["hello"] None None) "x" "" in
  is_shortcut st "x" = true
  ∧ get_shortcut_expansion st "x" = Some ""
  ∧ correct_spelling_enhanced st [] "x" = [Row4 "x" (Qc_of_Z 0) 1 "SymSpellPy"]
  ∧ correct_spelling_enhanced st [] "x" ≠ [Row4 "" 1 1 "Shortcut expansion"].
Proof.
  intros st.
  assert (Hres : correct_spelling_enhanced st [] "x"
                 = [Row4 "x" (Qc_of_Z 0) 1 "SymSpellPy"]).
  { unfold correct_spelling_enhanced.
    replace (get_shortcut_expansion st "x") with (Some "") by reflexivity.
    rewrite decide_False by (simpl; set_solver). reflexivity. }
  split; [by vm_compute|]. split; [reflexivity|]. split; [exact Hres|].
  rewrite Hres. intros [=].
Qed.

(** ** Candidate generator *)

Lemma length_append (l r : string) :
  String.length (l +:+ r) = (String.length l + String.length r)%nat.
Proof. induction l as [|c l IH]; simpl; [done | by rewrite IH]. Qed.

(** Every split is a prefix and the matching suffix. *)
Lemma splits_append (word l r : string) : (l, r) ∈ Str.splits word → l +:+ r = word.
Proof.
  revert l r. induction word as [|c w IH]; intros l r; simpl.
  - rewrite list_elem_of_singleton. by intros [= -> ->].
  - rewrite elem_of_cons, list_elem_of_fmap.
    intros [[= -> ->] | ([l' r'] & [= -> ->] & Hin)]; [done|].
    change (String c (l' +:+ r') = String c w). f_equal. by apply IH.
Qed.

Lemma splits_length (word l r : string) :
  (l, r) ∈ Str.splits word →
  (String.length l + String.length r)%nat = String.length word.
Proof. intros Hin. by rewrite <- (splits_append _ _ _ Hin), length_append. Qed.

Lemma splits_head (word : string) : (EmptyString, word) ∈ Str.splits word.
Proof. destruct word; simpl; apply list_elem_of_here. Qed.

Lemma is_lower_ascii_lowercase (c : ascii) :
  Str.is_lower c = true → c ∈ Str.ascii_lowercase.
Proof.
  destruct c as [[] [] [] [] [] [] [] []]; intros Hc; vm_compute in Hc;
    try discriminate Hc; apply (bool_decide_unpack _); vm_compute; exact I.
Qed.

(** Membership in the four lists of [edit1]. *)
Lemma elem_of_edit1_insert (word w : string) :
  w ∈ edit1_insert word ↔
  ∃ l r c, (l, r) ∈ Str.splits word ∧ c ∈ Str.ascii_lowercase ∧ w = l +:+ String c r.
Proof.
  unfold edit1_insert. rewrite list_elem_of_bind. split.
  - intros ([l r] & Hw & Hlr). rewrite list_elem_of_bind in Hw.
    destruct Hw as (c & Hw & Hc). apply list_elem_of_singleton in Hw. eauto 10.
  - intros (l & r & c & Hlr & Hc & ->). exists (l, r). split; [|done].
    rewrite list_elem_of_bind. exists c. split; [|done]. apply list_elem_of_here.
Qed.

Lemma elem_of_edit1_delete (word w : string) :
  w ∈ edit1_delete word ↔
  ∃ l r0 r1, (l, String r0 r1) ∈ Str.splits word ∧ w = l +:+ r1.
Proof.
  unfold edit1_delete. rewrite list_elem_of_bind. split.
  - intros ([l [|r0 r1]] & Hw & Hlr); [by apply elem_of_nil in Hw|].
    apply list_elem_of_singleton in Hw. eauto 10.
  - intros (l & r0 & r1 & Hlr & ->). exists (l, String r0 r1). split; [|done].
    apply list_elem_of_here.
Qed.

Lemma elem_of_edit1_replace (word w : string) :
  w ∈ edit1_replace word ↔
  ∃ l r0 r1 c, (l, String r0 r1) ∈ Str.splits word ∧ c ∈ Str.ascii_lowercase
               ∧ w = l +:+ String c r1.
Proof.
  unfold edit1_replace. rewrite list_elem_of_bind. split.
  - intros ([l [|r0 r1]] & Hw & Hlr); [by apply elem_of_nil in Hw|].
    rewrite list_elem_of_bind in Hw. destruct Hw as (c & Hw & Hc).
    apply list_elem_of_singleton in Hw. eauto 10.
  - intros (l & r0 & r1 & c & Hlr & Hc & ->). exists (l, String r0 r1). split; [|done].
    rewrite list_elem_of_bind. exists c. split; [|done]. apply list_elem_of_here.
Qed.

Lemma elem_of_edit1_swap (word w : string) :
  w ∈ edit1_swap word ↔
  ∃ l r0 r1 r2, (l, String r0 (String r1 r2)) ∈ Str.splits word
                ∧ w = l +:+ String r1 (String r0 r2).
Proof.
  unfold edit1_swap. rewrite list_elem_of_bind. split.
  - intros ([l [|r0 [|r1 r2]]] & Hw & Hlr); try by apply elem_of_nil in Hw.
    apply list_elem_of_singleton in Hw. eauto 10.
  - intros (l & r0 & r1 & r2 & Hlr & ->). exists (l, String r0 (String r1 r2)).
    split; [|done]. apply list_elem_of_here.
Qed.

Lemma elem_of_edit1 (word w : string) :
  w ∈ edit1 word ↔
  w ∈ edit1_replace word ∨ w ∈ edit1_insert word
  ∨ w ∈ edit1_delete word ∨ w ∈ edit1_swap word.
Proof. unfold edit1. by rewrite elem_of_list_to_set, !elem_of_app. Qed.

(** Every edit changes the length by at most one. *)
Lemma edit1_length (word w : string) :
  w ∈ edit1 word →
  (String.length w + 1 = String.length word
   ∨ String.length w = String.length word
   ∨ String.length w = String.length word + 1)%nat.
Proof.
  rewrite elem_of_edit1, elem_of_edit1_replace, elem_of_edit1_insert,
    elem_of_edit1_delete, elem_of_edit1_swap.
  intros [(l & r0 & r1 & c & Hlr & _ & ->) | [(l & r & c & Hlr & _ & ->)
         | [(l & r0 & r1 & Hlr & ->) | (l & r0 & r1 & r2 & Hlr & ->)]]];
    apply splits_length in Hlr; rewrite length_append; simpl in *; lia.
Qed.

(** C10: for a non-empty word of lowercase ASCII letters, [edit1] contains
    the word itself (a letter replaced by itself), and every member of
    [edit1] is one shorter than, as long as, or one longer than the word. *)
Theorem edit1_contains_word_and_bounds_length (word : string) :
  word ≠ EmptyString → Str.all_lower word = true →
  word ∈ edit1 word
  ∧ ∀ w, w ∈ edit1 word →
      len w = (len word - 1)%Z ∨ len w = len word ∨ len w = (len word + 1)%Z.
Proof.
  intros Hne Hlower. split.
  - destruct word as [|c w]; [done|]. simpl in Hlower.
    apply andb_prop in Hlower as [Hc _].
    apply elem_of_edit1. left. apply elem_of_edit1_replace.
    exists EmptyString, c, w, c. split; [apply splits_head|].
    split; [by apply is_lower_ascii_lowercase | done].
  - intros w Hw. apply edit1_length in Hw. unfold len. lia.
Qed.

Lemma edit1_contains_word_and_bounds_length_witness :
  "helo" ∈ edit1 "helo"
  ∧ ∀ w, w ∈ edit1 "helo" → len w = 3%Z ∨ len w = 4%Z ∨ len w = 5%Z.
Proof.
  apply (edit1_contains_word_and_bounds_length "helo"); [discriminate | reflexivity].
Defined.

(** ** Sorting and comprehensions *)

Section sorting_facts.
Context {A : Type} (key : A → xreal).

Lemma insert_by_key_Permutation (x : A) (l : list A) :
  insert_by_key key x l ≡ₚ x :: l.
Proof.
  induction l as [|y l IH]; simpl; [done|].
  destruct (X.ltb (key y) (key x)); [|done].
  rewrite IH. apply Permutation_swap.
Qed.

(** Sorting rearranges the list and nothing else. *)
Lemma sort_by_key_Permutation (l : list A) : sort_by_key key l ≡ₚ l.
Proof.
  induction l as [|x l IH]; simpl; [done|].
  by rewrite insert_by_key_Permutation, IH.
Qed.

Lemma length_sort_by_key (l : list A) : length (sort_by_key key l) = length l.
Proof. by rewrite sort_by_key_Permutation. Qed.
End sorting_facts.

Lemma comprehension_returns {A B} (f : A → outcome B) (l : list A) :
  (∀ x, x ∈ l → ∃ y, f x = Returns y) →
  ∃ ys, comprehension f l = Returns ys ∧ length ys = length l.
Proof.
  induction l as [|x l IH]; intros Hall; simpl.
  - by exists [].
  - destruct (Hall x) as [y Hy]; [apply list_elem_of_here|].
    destruct IH as (ys & Hys & Hlen).
    { intros x' Hx'. apply Hall. by apply list_elem_of_further. }
    rewrite Hy, Hys. simpl. exists (y :: ys). by rewrite <- Hlen.
Qed.

Lemma prob_at_returns (st : engine) (w : string) :
  consistent st → w ∈ vocabulary st →
  ∃ p, prob_of_word st !! w = Some p ∧ prob_at st w = Returns p.
Proof.
  intros Hst Hw. destruct (Hst w Hw) as [p Hp]. exists p.
  unfold prob_at. by rewrite Hp.
Qed.

Section pipeline_facts.
Variable gen : string → gset string.

Lemma elem_of_best_guesses (st : engine) (word w : string) :
  w ∈ best_guesses_over gen st word ↔ w ∈ vocabulary st ∧ w ∈ gen word.
Proof.
  unfold best_guesses_over. by rewrite list_elem_of_filter, elem_of_elements.
Qed.

Lemma best_guesses_nil (st : engine) (word : string) :
  (∀ w, w ∈ gen word → w ∉ vocabulary st) → best_guesses_over gen st word = [].
Proof.
  intros Hnone. destruct (best_guesses_over gen st word) as [|w ws] eqn:Hbg; [done|].
  assert (Hw : w ∈ best_guesses_over gen st word) by (rewrite Hbg; apply list_elem_of_here).
  apply elem_of_best_guesses in Hw as [Hv Hg]. by destruct (Hnone w Hg).
Qed.

(** The rows of a comprehension over guesses taken from the vocabulary. *)
Lemma rows_of_guesses (st : engine) (mk : string → Qc → row) (guesses : list string) :
  consistent st → (∀ w, w ∈ guesses → w ∈ vocabulary st) →
  ∃ rows, comprehension (λ w, p ←! prob_at st w; Returns (mk w p)) guesses
          = Returns rows
          ∧ length rows = length guesses.
Proof.
  intros Hst Hvoc. apply comprehension_returns. intros w Hw.
  destruct (prob_at_returns st w Hst (Hvoc w Hw)) as (p & _ & Hp).
  exists (mk w p). by rewrite Hp.
Qed.

(** The plain pipeline returns one row for every guess. *)
Lemma correct_spelling_over_length (st : engine) (word : string) :
  consistent st → word ∉ vocabulary st → best_guesses_over gen st word ≠ [] →
  ∃ rows, correct_spelling_over gen st word = Returns (Some rows)
          ∧ length rows = length (best_guesses_over gen st word).
Proof.
  intros Hst Hword Hne. unfold correct_spelling_over.
  rewrite decide_False by done.
  destruct (best_guesses_over gen st word) as [|g gs] eqn:Hbg; [done|].
  destruct (rows_of_guesses st Row2
              (sort_by_key (λ w, combined_score st w word) (g :: gs)) Hst)
    as (rows & Hrows & Hlen).
  { intros w Hw. rewrite sort_by_key_Permutation, <- Hbg in Hw.
    by apply elem_of_best_guesses in Hw as [? _]. }
  rewrite Hrows. simpl. exists rows. split; [done|].
  by rewrite Hlen, length_sort_by_key.
Qed.

(** The hybrid pipeline always returns, and at most five rows. *)
Lemma correct_spelling_hybrid_over_length
    (st : engine) (previous_words : list string) (word : string) :
  consistent st →
  ∃ rows, correct_spelling_hybrid_over gen st previous_words word = Returns rows
          ∧ (1 ≤ length rows ≤ 5)%nat.
Proof.
  intros Hst. unfold correct_spelling_hybrid_over.
  destruct (decide (word ∈ vocabulary st)) as [Hin|Hnotin].
  - destruct (prob_at_returns st word Hst Hin) as (p & _ & ->). simpl.
    exists [Row3 word p 1]. split; [done|]. simpl. lia.
  - destruct (best_guesses_over gen st word) as [|g gs] eqn:Hbg.
    { exists [Row3 word 0 0]. split; [done|]. simpl. lia. }
    set (sorted := if should_use_context word previous_words
                   then sort_by_key _ (g :: gs) else sort_by_key _ (g :: gs)).
    assert (Hperm : sorted ≡ₚ g :: gs).
    { unfold sorted. destruct (should_use_context _ _); apply sort_by_key_Permutation. }
    destruct (rows_of_guesses st
                (λ w p, Row3 w p (get_context_probability st w previous_words))
                (take 5 sorted) Hst) as (rows & Hrows & Hlen).
    { intros w Hw. apply elem_of_take in Hw as (i & Hw & _).
      apply list_elem_of_lookup_2 in Hw. rewrite Hperm, <- Hbg in Hw.
      by apply elem_of_best_guesses in Hw as [? _]. }
    exists rows. split; [exact Hrows|].
    rewrite Hlen, length_take, Hperm. cbn [length]. lia.
Qed.
End pipeline_facts.

Lemma elem_of_edit2 (word w : string) :
  w ∈ edit2 word ↔ ∃ e1, e1 ∈ edit1 word ∧ w ∈ edit1 e1.
Proof.
  unfold edit2. rewrite list_elem_of_bind. split.
  - intros (e1 & Hw & He1). exists e1. by rewrite <- !elem_of_elements.
  - intros (e1 & He1 & Hw). exists e1. by rewrite !elem_of_elements.
Qed.

Lemma elem_of_candidates (word w : string) :
  w ∈ candidates word ↔ w ∈ edit1 word ∨ w ∈ edit2 word.
Proof. unfold candidates. by rewrite elem_of_union, elem_of_list_to_set. Qed.

(** Two edits change the length by at most two. *)
Lemma candidates_length (word w : string) :
  w ∈ candidates word → (String.length w ≤ String.length word + 2)%nat.
Proof.
  rewrite elem_of_candidates, elem_of_edit2.
  intros [Hw | (e1 & He1 & Hw)].
  - apply edit1_length in Hw. lia.
  - apply edit1_length in He1, Hw. lia.
Qed.

(** ** The pipelines on vocabulary words and on hopeless words *)

(** C6: when the word is not in the vocabulary and neither is any member
    of [edit1(word)] or [edit2(word)], the plain pipelines and the hybrid
    pipeline return the one row (word, 0, 0) as an ordinary value. *)
Theorem no_candidate_returns_original (st : engine) (word : string) :
  word ∉ vocabulary st →
  (∀ w, w ∈ edit1 word ∨ w ∈ edit2 word → w ∉ vocabulary st) →
  correct_spelling st word = Returns (Some [Row3 word 0 0])
  ∧ (∀ previous_word,
       correct_spelling_with_context st previous_word word = Returns [Row3 word 0 0])
  ∧ (∀ previous_words,
       correct_spelling_hybrid st previous_words word = Returns [Row3 word 0 0]).
Proof.
  intros Hword Hnone.
  assert (Hbg : best_guesses_over candidates st word = []).
  { apply best_guesses_nil. intros w Hw. apply Hnone. by apply elem_of_candidates. }
  unfold correct_spelling, correct_spelling_with_context, correct_spelling_hybrid,
    correct_spelling_over, correct_spelling_with_context_over,
    correct_spelling_hybrid_over.
  split; [|split]; intros; rewrite (decide_False (P := word ∈ vocabulary st)) by done;
    by rewrite Hbg.
Qed.

Lemma no_candidate_returns_original_witness :
  correct_spelling two_word_engine "zz" = Returns (Some [Row3 "zz" 0 0])
  ∧ (∀ previous_word,
       correct_spelling_with_context two_word_engine previous_word "zz"
       = Returns [Row3 "zz" 0 0])
  ∧ (∀ previous_words,
       correct_spelling_hybrid two_word_engine previous_words "zz"
       = Returns [Row3 "zz" 0 0]).
Proof.
  apply (no_candidate_returns_original two_word_engine "zz").
  - apply (bool_decide_unpack _). vm_compute. exact I.
  - intros w Hw Hvoc. apply elem_of_candidates, candidates_length in Hw.
    simpl in Hvoc, Hw.
    assert (Hcases : w = "hello" ∨ w = "world") by set_solver.
    destruct Hcases as [-> | ->]; simpl in Hw; lia.
Defined.

(** C1, as amended: on a vocabulary word the hybrid pipeline returns that
    word with its stored probability and context value 1, and the plain
    context pipeline returns it with its stored probability and the stored
    bigram probability (0 when there is none); both do so whatever the
    candidate generator is, so no candidate search contributes. *)
Theorem vocabulary_word_returned_as_is (st : engine) (t : string) :
  reachable st → t ∈ vocabulary st →
  ∃ p, prob_of_word st !! t = Some p
       ∧ correct_spelling_hybrid st [] t = Returns [Row3 t p 1]
       ∧ (∀ gen previous_words,
            correct_spelling_hybrid_over gen st previous_words t = Returns [Row3 t p 1])
       ∧ (∀ gen previous_word,
            correct_spelling_with_context_over gen st previous_word t
            = Returns [Row3 t p (default 0%Qc (prob_of_bigram st !! (previous_word, t)))]).
Proof.
  intros Hreach Ht.
  destruct (prob_at_returns st t (reachable_consistent st Hreach) Ht) as (p & Hp & Hat).
  exists p. split; [done|].
  unfold correct_spelling_hybrid, correct_spelling_hybrid_over,
    correct_spelling_with_context_over.
  rewrite !decide_True by done. rewrite Hat. simpl.
  repeat split; intros; by rewrite ?decide_True, ?Hat by done.
Qed.

Lemma vocabulary_word_returned_as_is_witness :
  ∃ p, prob_of_word sample_engine !! "quick" = Some p
       ∧ correct_spelling_hybrid sample_engine [] "quick" = Returns [Row3 "quick" p 1]
       ∧ (∀ gen previous_words,
            correct_spelling_hybrid_over gen sample_engine previous_words "quick"
            = Returns [Row3 "quick" p 1])
       ∧ (∀ gen previous_word,
            correct_spelling_with_context_over gen sample_engine previous_word "quick"
            = Returns [Row3 "quick" p
                         (default 0%Qc
                            (prob_of_bigram sample_engine !! (previous_word, "quick")))]).
Proof.
  apply (vocabulary_word_returned_as_is sample_engine "quick").
  - apply reach_init.
  - apply (bool_decide_unpack _). vm_compute. exact I.
Defined.

(** C1 as stated fails on two of the pipelines: the plain
    [correct_spelling] returns no value on a vocabulary word, and the
    enhanced pipeline answers from the SymSpell dictionary with the
    constant 1 in place of the stored probability. *)
Lemma vocabulary_word_without_probability :
  let words := ["hello"; "hello"; "hello"; "world"] in
  let plain := plain_init words in
  let enhanced :=
    enhanced_init {| sym_words := {["hello"]}; sym_lookup := λ w, [(w, 0%Z)] |}
                  words None None in
  "hello" ∈ vocabulary plain
  ∧ correct_spelling plain "hello" = Returns None
  ∧ "hello" ∈ vocabulary enhanced
  ∧ this (default 0%Qc (prob_of_word enhanced !! "hello")) = (3 # 4)%Q
  ∧ correct_spelling_enhanced enhanced [] "hello" = [Row4 "hello" 1 1 "SymSpellPy"].
Proof.
  intros words plain enhanced.
  assert (Hplain : "hello" ∈ vocabulary plain)
    by (apply (bool_decide_unpack _); vm_compute; exact I).
  assert (Henh : "hello" ∈ vocabulary enhanced)
    by (apply (bool_decide_unpack _); vm_compute; exact I).
  split; [exact Hplain|]. split.
  { unfold correct_spelling, correct_spelling_over. by rewrite decide_True. }
  split; [exact Henh|]. split; [by vm_compute|].
  unfold correct_spelling_enhanced.
  replace (get_shortcut_expansion enhanced "hello") with (@None string) by reflexivity.
  rewrite decide_True; [done|]. simpl. set_solver.
Qed.

(** ** The size of the result *)

Lemma correct_spelling_enhanced_length
    (st : engine) (previous_words : list string) (word : string) :
  (1 ≤ length (correct_spelling_enhanced st previous_words word) ≤ 5)%nat.
Proof.
  unfold correct_spelling_enhanced.
  assert (Hrest :
    (1 ≤ length (if decide (word ∈ sym_words (sym_spell st))
                 then [Row4 word 1 1 "SymSpellPy"]
                 else match sym_lookup (sym_spell st) word with
                      | [] => [Row4 word 0 0 "No suggestion"]
                      | _ =>
                          map (λ suggestion : string * Z,
                                 Row4 suggestion.1 (Qc_of_Z suggestion.2) 1 "SymSpellPy")
                              (take 5 (sym_lookup (sym_spell st) word))
                      end) ≤ 5)%nat).
  { case_decide; [simpl; lia|].
    destruct (sym_lookup (sym_spell st) word) as [|s ss]; [simpl; lia|].
    rewrite length_map, length_take. cbn [length]. lia. }
  destruct (get_shortcut_expansion st word) as [[|c e]|]; [exact Hrest| |exact Hrest].
  simpl. lia.
Qed.

(** C3, as amended: the hybrid and the enhanced pipeline return between
    one and five rows; the plain pipeline returns one row for every
    vocabulary member among the candidates, however many there are. *)
Theorem hybrid_and_enhanced_return_at_most_five
    (st : engine) (previous_words : list string) (word : string) :
  reachable st →
  (∃ rows, correct_spelling_hybrid st previous_words word = Returns rows
           ∧ (1 ≤ length rows ≤ 5)%nat)
  ∧ (1 ≤ length (correct_spelling_enhanced st previous_words word) ≤ 5)%nat
  ∧ (word ∉ vocabulary st → best_guesses_over candidates st word ≠ [] →
     ∃ rows, correct_spelling st word = Returns (Some rows)
             ∧ length rows = length (best_guesses_over candidates st word)).
Proof.
  intros Hreach. pose proof (reachable_consistent st Hreach) as Hst.
  split; [|split].
  - by apply correct_spelling_hybrid_over_length.
  - apply correct_spelling_enhanced_length.
  - by apply correct_spelling_over_length.
Qed.

Lemma rhyme_words_are_guesses (st : engine) :
  vocabulary st = list_to_set rhyme_words →
  ∀ w, w ∈ rhyme_words → w ∈ best_guesses_over candidates st "xat".
Proof.
  intros Hvoc w Hw. apply elem_of_best_guesses. split.
  - rewrite Hvoc. by apply elem_of_list_to_set.
  - apply elem_of_candidates. left.
    assert (Hfirst : ∀ c, c ∈ Str.ascii_lowercase → String c "at" ∈ edit1 "xat").
    { intros c Hc. apply elem_of_edit1. left. apply elem_of_edit1_replace.
      exists EmptyString, "x"%char, "at", c. split; [apply splits_head | done]. }
    unfold rhyme_words in Hw.
    repeat (apply elem_of_cons in Hw as [-> | Hw];
            [apply Hfirst, is_lower_ascii_lowercase; reflexivity|]).
    apply elem_of_nil in Hw. destruct Hw.
Qed.

Lemma six_guesses (st : engine) :
  vocabulary st = list_to_set rhyme_words →
  (6 ≤ length (best_guesses_over candidates st "xat"))%nat.
Proof.
  intros Hvoc. change 6%nat with (length rhyme_words).
  apply submseteq_length, NoDup_submseteq.
  - apply (bool_decide_unpack _). vm_compute. exact I.
  - by apply rhyme_words_are_guesses.
Qed.

Lemma hybrid_and_enhanced_return_at_most_five_witness :
  let st := hybrid_init rhyme_words None in
  (∃ rows, correct_spelling_hybrid st ["the"] "xat" = Returns rows
           ∧ (1 ≤ length rows ≤ 5)%nat)
  ∧ (1 ≤ length (correct_spelling_enhanced st ["the"] "xat") ≤ 5)%nat
  ∧ ∃ rows, correct_spelling st "xat" = Returns (Some rows)
            ∧ length rows = length (best_guesses_over candidates st "xat").
Proof.
  intros st.
  destruct (hybrid_and_enhanced_return_at_most_five st ["the"] "xat")
    as (Hhybrid & Henhanced & Hplain).
  { exact (reach_init no_sym_spell rhyme_words None None). }
  split; [exact Hhybrid|]. split; [exact Henhanced|].
  apply Hplain.
  - apply (bool_decide_unpack _). vm_compute. exact I.
  - intros Hnil. pose proof (six_guesses st eq_refl) as Hsix.
    rewrite Hnil in Hsix. simpl in Hsix. lia.
Defined.

(** C3 as stated fails on the plain pipeline: with six vocabulary words
    one substitution away from the query, [correct_spelling] returns more
    than five rows. *)
Lemma plain_pipeline_returns_six_rows :
  ∃ rows, correct_spelling (plain_init rhyme_words) "xat" = Returns (Some rows)
          ∧ (5 < length rows)%nat.
Proof.
  pose proof (six_guesses (plain_init rhyme_words) eq_refl) as Hsix.
  destruct (correct_spelling_over_length candidates (plain_init rhyme_words) "xat")
    as (rows & Hrows & Hlen).
  - apply reachable_consistent, reach_plain_init.
  - apply (bool_decide_unpack _). vm_compute. exact I.
  - intros Hnil. rewrite Hnil in Hsix. simpl in Hsix. lia.
  - exists rows. split; [exact Hrows|]. lia.
Qed.

(** ** Unigram probabilities as a distribution *)

Lemma sum_probs_build_vocabulary (st : engine) (all_words : list string) :
  all_words ≠ [] → sum_probs (prob_of_word (build_vocabulary st all_words)) = 1%Qc.
Proof.
  intros Hne. simpl. apply sum_probs_probabilities.
  rewrite sum_counts_Counter. destruct all_words; [done | simpl; lia].
Qed.

Lemma sum_probs_add_custom_word (st : engine) (word : string) :
  sum_probs (prob_of_word (add_custom_word st word))
  = (sum_probs (prob_of_word st) - default 0 (prob_of_word st !! Str.lower word)
     + custom_word_prob)%Qc.
Proof. simpl. apply sum_probs_insert. Qed.

(** C9, as amended: after [build_vocabulary] on a non-empty token stream
    the stored unigram probabilities sum to 1; [add_custom_word] replaces
    the word's share of the sum by the constant 0.001 and rescales
    nothing; recording feedback and removing a shortcut leave the table
    as it is. *)
Theorem unigram_probabilities_sum :
  (∀ st all_words, all_words ≠ [] →
     sum_probs (prob_of_word (build_vocabulary st all_words)) = 1%Qc)
  ∧ (∀ st word,
       sum_probs (prob_of_word (add_custom_word st word))
       = (sum_probs (prob_of_word st) - default 0 (prob_of_word st !! Str.lower word)
          + custom_word_prob)%Qc)
  ∧ (∀ st o s accept, prob_of_word (record_user_feedback st o s accept) = prob_of_word st)
  ∧ (∀ st shortcut, prob_of_word (remove_shortcut st shortcut).1 = prob_of_word st).
Proof.
  split; [exact sum_probs_build_vocabulary|].
  split; [exact sum_probs_add_custom_word|].
  split; [done|]. intros st shortcut. unfold remove_shortcut. by case_decide.
Qed.

Lemma unigram_probabilities_sum_witness :
  sum_probs (prob_of_word (build_vocabulary (fresh no_sym_spell) ["hello"; "world"; "hello"]))
  = 1%Qc.
Proof.
  apply (proj1 unigram_probabilities_sum). discriminate.
Defined.

(** C9 as stated fails: adding a custom word that the corpus does not have
    moves the sum of the stored probabilities from 1 to 1.001. *)
Lemma custom_word_breaks_unit_sum :
  let st := enhanced_init no_sym_spell ["hello"; "world"; "hello"] None None in
  sum_probs (prob_of_word st) = 1%Qc
  ∧ sum_probs (prob_of_word (add_custom_word st "rocq")) ≠ 1%Qc
  ∧ this (sum_probs (prob_of_word (add_custom_word st "rocq"))) = (1001 # 1000)%Q.
Proof.
  intros st.
  assert (Hone : sum_probs (prob_of_word st) = 1%Qc).
  { apply (sum_probs_build_vocabulary (fresh no_sym_spell)). discriminate. }
  assert (Hnew : sum_probs (prob_of_word (add_custom_word st "rocq"))
                 = (1 - 0 + custom_word_prob)%Qc).
  { rewrite sum_probs_add_custom_word, Hone. reflexivity. }
  split; [exact Hone|]. rewrite Hnew. split.
  - apply Qc_neq_by_this. by vm_compute.
  - by vm_compute.
Qed.

(** ** Feedback *)

Lemma feedback_record_record (fb : gmap string (gmap string feedback))
    (o s : string) (accept : bool) :
  feedback_record (record_feedback fb o s accept) o s
  = Some (bump accept (default (Feedback 0 0) (feedback_record fb o s))).
Proof.
  unfold feedback_record, record_feedback.
  rewrite lookup_insert_eq. simpl. rewrite lookup_insert_eq. f_equal.
  destruct (decide (o ∈ dom fb)) as [Ho|Ho].
  - apply elem_of_dom in Ho as [inner Hinner]. rewrite Hinner. simpl.
    destruct (decide (s ∈ dom inner)) as [Hs|Hs].
    + apply elem_of_dom in Hs as [r Hr]. by rewrite Hr.
    + apply not_elem_of_dom in Hs. by rewrite lookup_insert_eq, Hs.
  - apply not_elem_of_dom in Ho. rewrite lookup_insert_eq, Ho. simpl.
    rewrite decide_False by (rewrite dom_empty_L; set_solver).
    by rewrite lookup_insert_eq.
Qed.

(** [n] acceptances in a row add [n] to the accepted counter. *)
Lemma feedback_record_accepted (fb : gmap string (gmap string feedback))
    (o s : string) (n : nat) :
  let r := default (Feedback 0 0) (feedback_record fb o s) in
  feedback_record (Nat.iter (S n) (λ f, record_feedback f o s true) fb) o s
  = Some (Feedback (S n + accepted r) (rejected r)).
Proof.
  intros r. induction n as [|n IH].
  - simpl. by rewrite feedback_record_record.
  - rewrite Nat.iter_succ, feedback_record_record, IH. reflexivity.
Qed.

Lemma feedback_score_record (fb : gmap string (gmap string feedback))
    (o s : string) (r : feedback) :
  feedback_record fb o s = Some r →
  feedback_score fb o s
  = match acceptance_rate r with
    | Some rate => X.scale (X.opp (np_log (1 - rate)%Qc)) (3 / 2)
    | None => Fin 0
    end.
Proof.
  unfold feedback_record, feedback_score, acceptance_rate.
  destruct (fb !! o) as [inner|]; simpl; [|done]. intros ->. by case_decide.
Qed.

Lemma feedback_score_no_record (fb : gmap string (gmap string feedback)) (o s : string) :
  feedback_record fb o s = None → feedback_score fb o s = Fin 0.
Proof.
  unfold feedback_record, feedback_score.
  destruct (fb !! o) as [inner|]; simpl; [|done]. by intros ->.
Qed.

Lemma Qcdiv_lt_1 (a b : Qc) : (0 < b → a < b → a / b < 1)%Qc.
Proof.
  intros Hb Hab. unfold Qcdiv.
  rewrite <- (Qcmult_inv_r b) by (intros ->; by apply (irreflexivity Qclt 0%Qc)).
  apply Qcmult_lt_compat_r; [by apply Qcinv_pos | done].
Qed.

Lemma np_log_positive (q : Qc) : (0 < q)%Qc → np_log q = Fin (ln (Q2R q)).
Proof.
  intros Hq. unfold np_log.
  rewrite decide_False by (intros ->; by apply (irreflexivity Qclt 0%Qc)).
  rewrite decide_False; [done|]. intros Hneg.
  apply (irreflexivity Qclt 0%Qc). by etrans.
Qed.

Lemma scale_PInf_positive (k : R) : (0 < k)%R → X.scale PInf k = PInf.
Proof. intros Hk. simpl. by destruct (Rlt_dec 0 k). Qed.

(** C5: starting without observations for (original, suggestion), after N
    ≥ 1 acceptances the acceptance rate is 1; one rejection more makes the
    rate strictly smaller and the magnitude of the feedback term strictly
    smaller (the term is infinite at rate 1, as [-np.log(0)] is).  The
    feedback term is 0 without record or without observations, and
    -ln(1 - rate) times 1.5 otherwise. *)
Theorem feedback_monotone
    (fb : gmap string (gmap string feedback)) (o s : string) (N : nat) :
  (1 ≤ N)%nat →
  default (Feedback 0 0) (feedback_record fb o s) = Feedback 0 0 →
  let fb1 := Nat.iter N (λ f, record_feedback f o s true) fb in
  let fb2 := record_feedback fb1 o s false in
  feedback_record fb1 o s = Some (Feedback N 0)
  ∧ acceptance_rate (Feedback N 0) = Some 1%Qc
  ∧ feedback_record fb2 o s = Some (Feedback N 1)
  ∧ (∃ rate2, acceptance_rate (Feedback N 1) = Some rate2 ∧ (rate2 < 1)%Qc)
  ∧ X.lt (X.abs (feedback_score fb2 o s)) (X.abs (feedback_score fb1 o s))
  ∧ feedback_score fb o s = Fin 0
  ∧ (∀ fb', feedback_record fb' o s = None → feedback_score fb' o s = Fin 0)
  ∧ (∀ fb' r, feedback_record fb' o s = Some r →
       (accepted r + rejected r = 0)%nat → feedback_score fb' o s = Fin 0)
  ∧ (∀ fb' r, feedback_record fb' o s = Some r →
       (0 < accepted r + rejected r)%nat →
       feedback_score fb' o s
       = X.scale
           (X.opp (np_log (1 - Qc_of_nat (accepted r)
                               / Qc_of_nat (accepted r + rejected r))%Qc))
           (3 / 2)).
Proof.
  intros HN Hzero fb1 fb2.
  assert (Hrec1 : feedback_record fb1 o s = Some (Feedback N 0)).
  { unfold fb1. destruct N as [|n]; [lia|].
    rewrite feedback_record_accepted, Hzero. simpl. by rewrite Nat.add_0_r. }
  assert (Hrec2 : feedback_record fb2 o s = Some (Feedback N 1)).
  { unfold fb2. by rewrite feedback_record_record, Hrec1. }
  assert (Hrate1 : acceptance_rate (Feedback N 0) = Some 1%Qc).
  { unfold acceptance_rate. simpl. rewrite Nat.add_0_r.
    rewrite decide_True by lia. f_equal. apply Qcdiv_diag.
    intros Heq. pose proof (Qc_of_nat_pos N HN) as Hpos. rewrite Heq in Hpos.
    by apply (irreflexivity Qclt 0%Qc). }
  assert (Hlt : (Qc_of_nat N / Qc_of_nat (N + 1) < 1)%Qc).
  { apply Qcdiv_lt_1; [apply Qc_of_nat_pos | apply Qc_of_nat_lt]; lia. }
  assert (Hrate2 : acceptance_rate (Feedback N 1)
                   = Some (Qc_of_nat N / Qc_of_nat (N + 1))%Qc).
  { unfold acceptance_rate. simpl. by rewrite decide_True by lia. }
  split; [exact Hrec1|]. split; [exact Hrate1|]. split; [exact Hrec2|].
  split; [eauto|]. split.
  { rewrite (feedback_score_record fb2 o s _ Hrec2), Hrate2.
    rewrite (feedback_score_record fb1 o s _ Hrec1), Hrate1.
    replace (1 - 1)%Qc with 0%Qc by ring.
    rewrite np_log_positive by (by apply Qclt_minus_iff in Hlt).
    unfold np_log. rewrite decide_True by done.
    change (X.opp NInf) with PInf. rewrite scale_PInf_positive by lra.
    exact I. }
  split.
  { destruct (feedback_record fb o s) as [r|] eqn:Hr.
    - rewrite (feedback_score_record fb o s r Hr). simpl in Hzero. by subst r.
    - by apply feedback_score_no_record. }
  split; [intros fb'; apply feedback_score_no_record|].
  split; intros fb' r Hr Htotal; rewrite (feedback_score_record fb' o s r Hr);
    unfold acceptance_rate.
  - by rewrite decide_False by lia.
  - by rewrite decide_True by lia.
Qed.

Lemma feedback_monotone_witness :
  let fb1 := Nat.iter 3 (λ f, record_feedback f "teh" "the" true) ∅ in
  let fb2 := record_feedback fb1 "teh" "the" false in
  feedback_record fb1 "teh" "the" = Some (Feedback 3 0)
  ∧ feedback_record fb2 "teh" "the" = Some (Feedback 3 1)
  ∧ X.lt (X.abs (feedback_score fb2 "teh" "the")) (X.abs (feedback_score fb1 "teh" "the")).
Proof.
  intros fb1 fb2.
  destruct (feedback_monotone ∅ "teh" "the" 3) as (H1 & _ & H2 & _ & H3 & _).
  - lia.
  - reflexivity.
  - split; [exact H1|]. split; [exact H2 | exact H3].
Defined.

(** * Further properties of the code *)

(** ** Edit distance *)

Lemma levenshtein_nil_r (s : string) : levenshtein s "" = String.length s.
Proof. by destruct s. Qed.

Lemma levenshtein_cons (a b : ascii) (s t : string) :
  levenshtein (String a s) (String b t)
  = if decide (a = b) then levenshtein s t
    else S (levenshtein s (String b t)
            `min` (levenshtein (String a s) t `min` levenshtein s t)).
Proof. reflexivity. Qed.

Lemma levenshtein_refl (s : string) : levenshtein s s = 0%nat.
Proof.
  induction s as [|a s IH]; [done|]. by rewrite levenshtein_cons, decide_True.
Qed.

Lemma levenshtein_eq_0 (s t : string) : levenshtein s t = 0%nat → s = t.
Proof.
  revert t. induction s as [|a s IH]; intros [|b t] Hlev; try done.
  rewrite levenshtein_cons in Hlev. case_decide as Hab; [|done].
  subst b. f_equal. by apply IH.
Qed.

Lemma levenshtein_sym (s t : string) : levenshtein s t = levenshtein t s.
Proof.
  revert t. induction s as [|a s IHs]; intros t.
  - by rewrite levenshtein_nil_r.
  - induction t as [|b t IHt]; [done|].
    rewrite !levenshtein_cons.
    destruct (decide (a = b)) as [->|Hab].
    + rewrite decide_True by done. apply IHs.
    + rewrite decide_False by congruence.
      rewrite IHt, (IHs (String b t)), (IHs t). lia.
Qed.

Lemma levenshtein_prefix (l a b : string) :
  levenshtein (l +:+ a) (l +:+ b) = levenshtein a b.
Proof.
  induction l as [|c l IH]; [done|].
  change (levenshtein (String c (l +:+ a)) (String c (l +:+ b)) = levenshtein a b).
  by rewrite levenshtein_cons, decide_True.
Qed.

Lemma levenshtein_drop_head (c : ascii) (r : string) :
  (levenshtein (String c r) r ≤ 1)%nat.
Proof.
  revert c. induction r as [|b r IH]; intros c; [simpl; lia|].
  rewrite levenshtein_cons. case_decide as Hcb; [apply IH|].
  rewrite levenshtein_refl. lia.
Qed.

Lemma levenshtein_change_head (c r0 : ascii) (r : string) :
  (levenshtein (String c r) (String r0 r) ≤ 1)%nat.
Proof.
  rewrite levenshtein_cons. case_decide; rewrite levenshtein_refl; lia.
Qed.

Lemma levenshtein_swap_heads (r0 r1 : ascii) (r : string) :
  (levenshtein (String r1 (String r0 r)) (String r0 (String r1 r)) ≤ 2)%nat.
Proof.
  rewrite levenshtein_cons. case_decide as H10.
  - subst r1. rewrite levenshtein_refl. lia.
  - rewrite levenshtein_cons, decide_True by done.
    pose proof (levenshtein_drop_head r1 r) as Hd.
    rewrite levenshtein_sym in Hd. lia.
Qed.

(** X1: every member of [edit1(word)] is within Levenshtein distance 2 of
    the word, the distance [custom_score] measures: at most 1 for an
    insertion, deletion or replacement, at most 2 for a transposition. *)
Theorem edit1_within_distance_two (word w : string) :
  w ∈ edit1 word →
  (levenshtein w word ≤ 2)%nat
  ∧ (w ∉ edit1_swap word → (levenshtein w word ≤ 1)%nat).
Proof.
  intros Hw.
  assert (Hswap : w ∈ edit1_swap word → (levenshtein w word ≤ 2)%nat).
  { rewrite elem_of_edit1_swap. intros (l & r0 & r1 & r2 & Hlr & ->).
    rewrite <- (splits_append _ _ _ Hlr), levenshtein_prefix.
    apply levenshtein_swap_heads. }
  assert (Hother : w ∉ edit1_swap word → (levenshtein w word ≤ 1)%nat).
  { intros Hns. apply elem_of_edit1 in Hw as [Hw | [Hw | [Hw | Hw]]]; [| | |done].
    - apply elem_of_edit1_replace in Hw as (l & r0 & r1 & c & Hlr & _ & ->).
      rewrite <- (splits_append _ _ _ Hlr), levenshtein_prefix.
      apply levenshtein_change_head.
    - apply elem_of_edit1_insert in Hw as (l & r & c & Hlr & _ & ->).
      rewrite <- (splits_append _ _ _ Hlr), levenshtein_prefix.
      apply levenshtein_drop_head.
    - apply elem_of_edit1_delete in Hw as (l & r0 & r1 & Hlr & ->).
      rewrite <- (splits_append _ _ _ Hlr), levenshtein_prefix.
      rewrite levenshtein_sym. apply levenshtein_drop_head. }
  split; [|exact Hother].
  destruct (decide (w ∈ edit1_swap word)) as [Hin|Hnotin]; [by apply Hswap|].
  specialize (Hother Hnotin). lia.
Qed.

Lemma edit1_within_distance_two_witness :
  (levenshtein "hlelo" "hello" ≤ 2)%nat
  ∧ ("hlelo" ∉ edit1_swap "hello" → (levenshtein "hlelo" "hello" ≤ 1)%nat).
Proof.
  apply (edit1_within_distance_two "hello" "hlelo").
  apply (bool_decide_unpack _). vm_compute. exact I.
Defined.

(** [edit1] commutes with putting one more letter in front. *)
Lemma splits_cons (c : ascii) (word l r : string) :
  (l, r) ∈ Str.splits word → (String c l, r) ∈ Str.splits (String c word).
Proof.
  intros Hlr. simpl. apply list_elem_of_further, list_elem_of_fmap.
  by exists (l, r).
Qed.

Lemma edit1_cons (c : ascii) (word w : string) :
  w ∈ edit1 word → String c w ∈ edit1 (String c word).
Proof.
  rewrite !elem_of_edit1, !elem_of_edit1_replace, !elem_of_edit1_insert,
    !elem_of_edit1_delete, !elem_of_edit1_swap.
  intros [(l & r0 & r1 & x & Hlr & Hx & ->) | [(l & r & x & Hlr & Hx & ->)
         | [(l & r0 & r1 & Hlr & ->) | (l & r0 & r1 & r2 & Hlr & ->)]]];
    apply (splits_cons c) in Hlr.
  - left. by exists (String c l), r0, r1, x.
  - right; left. by exists (String c l), r, x.
  - right; right; left. by exists (String c l), r0, r1.
  - right; right; right. by exists (String c l), r0, r1, r2.
Qed.

(** X2: [edit1] is complete for one edit: every string of lowercase
    letters at Levenshtein distance exactly 1 from the word is a member of
    [edit1(word)]. *)
Theorem edit1_complete_at_distance_one (word v : string) :
  Str.all_lower v = true → levenshtein v word = 1%nat → v ∈ edit1 word.
Proof.
  rewrite levenshtein_sym. revert v.
  induction word as [|a s IH]; intros v Hlower Hlev.
  - destruct v as [|b [|b' v]]; simpl in Hlev; try done.
    simpl in Hlower. apply andb_prop in Hlower as [Hb _].
    apply elem_of_edit1. right; left. apply elem_of_edit1_insert.
    exists EmptyString, EmptyString, b.
    split; [apply splits_head|]. split; [by apply is_lower_ascii_lowercase | done].
  - destruct v as [|b t].
    + rewrite levenshtein_nil_r in Hlev. simpl in Hlev.
      destruct s; [|done].
      apply elem_of_edit1. right; right; left. apply elem_of_edit1_delete.
      exists EmptyString, a, EmptyString. split; [apply splits_head | done].
    + simpl in Hlower. apply andb_prop in Hlower as [Hb Ht].
      rewrite levenshtein_cons in Hlev. case_decide as Hab.
      * subst b. apply edit1_cons. by apply IH.
      * assert (Hzero : levenshtein s (String b t) = 0%nat
                        ∨ levenshtein (String a s) t = 0%nat
                        ∨ levenshtein s t = 0%nat) by lia.
        destruct Hzero as [Hz | [Hz | Hz]]; apply levenshtein_eq_0 in Hz.
        -- subst s. apply elem_of_edit1. right; right; left.
           apply elem_of_edit1_delete.
           exists EmptyString, a, (String b t). split; [apply splits_head | done].
        -- subst t. apply elem_of_edit1. right; left. apply elem_of_edit1_insert.
           exists EmptyString, (String a s), b.
           split; [apply splits_head|].
           split; [by apply is_lower_ascii_lowercase | done].
        -- subst t. apply elem_of_edit1. left. apply elem_of_edit1_replace.
           exists EmptyString, a, s, b.
           split; [apply splits_head|].
           split; [by apply is_lower_ascii_lowercase | done].
Qed.

Lemma edit1_complete_at_distance_one_witness : "hello" ∈ edit1 "helo".
Proof.
  apply (edit1_complete_at_distance_one "helo" "hello"); reflexivity.
Defined.

(** ** Structural score: sign, zero and transpositions *)

Lemma common_prefix_length_refl (w : string) : common_prefix_length w w = len w.
Proof.
  unfold len. induction w as [|c w IH]; [done|].
  simpl. rewrite decide_True by done. rewrite IH. lia.
Qed.

Lemma common_prefix_length_bounds (word1 word2 : string) :
  (0 ≤ common_prefix_length word1 word2 ≤ len word2)%Z.
Proof.
  unfold len. revert word2.
  induction word1 as [|c1 w1 IH]; intros [|c2 w2]; simpl; try lia.
  case_decide; [|lia]. specialize (IH w2). lia.
Qed.

(** X3: [custom_score] is never negative, and it is 0 exactly when the
    suggestion is the original word. *)
Theorem custom_score_zero_iff_same (suggestion original_word : string) :
  (0 ≤ custom_score suggestion original_word)%Z
  ∧ (custom_score suggestion original_word = 0%Z ↔ suggestion = original_word).
Proof.
  pose proof (common_prefix_length_bounds suggestion original_word) as Hcpl.
  assert (Hzero : levenshtein suggestion original_word = 0%nat →
                  len suggestion = len original_word).
  { intros Hlev. by rewrite (levenshtein_eq_0 _ _ Hlev). }
  split.
  - unfold custom_score, editdistance_eval, replace_weight, insert_weight,
      delete_weight, swap_weight.
    repeat case_match; lia.
  - split.
    + intros Hscore. apply levenshtein_eq_0.
      revert Hscore.
      unfold custom_score, editdistance_eval, replace_weight, insert_weight,
        delete_weight, swap_weight.
      repeat case_match; lia.
    + intros ->. unfold custom_score, editdistance_eval, replace_weight.
      rewrite Z.eqb_refl, levenshtein_refl, common_prefix_length_refl. lia.
Qed.

Lemma common_prefix_length_prefix (l a b : string) :
  common_prefix_length (l +:+ a) (l +:+ b) = (len l + common_prefix_length a b)%Z.
Proof.
  unfold len. induction l as [|c l IH]; [done|].
  change (common_prefix_length (String c (l +:+ a)) (String c (l +:+ b))
          = (Z.of_nat (S (String.length l)) + common_prefix_length a b)%Z).
  simpl common_prefix_length. rewrite decide_True by done. rewrite IH. lia.
Qed.

Lemma levenshtein_drop_head_eq (c : ascii) (r : string) :
  levenshtein (String c r) r = 1%nat.
Proof.
  pose proof (levenshtein_drop_head c r) as Hle.
  destruct (levenshtein (String c r) r) as [|n] eqn:Hlev; [|lia].
  apply levenshtein_eq_0 in Hlev. apply (f_equal String.length) in Hlev.
  simpl in Hlev. lia.
Qed.

(** X4: the score of a transposition.  Swapping two different adjacent
    letters of a word gives a member of [edit1] of the word; its edit
    distance to the word is 2, and [custom_score] weighs it with the
    replace weight and adds the number of letters from the swapped pair to
    the end of the word: the score is 4 plus the number of letters after
    the pair. *)
Theorem transposition_score (l r2 : string) (r0 r1 : ascii) :
  r0 ≠ r1 →
  let word := l +:+ String r0 (String r1 r2) in
  let w := l +:+ String r1 (String r0 r2) in
  w ∈ edit1 word
  ∧ editdistance_eval w word = 2%Z
  ∧ custom_score w word = (4 + len r2)%Z.
Proof.
  intros Hne word w.
  assert (Hlev : levenshtein w word = 2%nat).
  { unfold w, word. rewrite levenshtein_prefix.
    rewrite levenshtein_cons, decide_False by congruence.
    rewrite (levenshtein_cons r0 r0), decide_True by done.
    rewrite (levenshtein_cons r1 r1), decide_True by done.
    rewrite (levenshtein_cons r0 r1), decide_False by done.
    rewrite levenshtein_refl, levenshtein_drop_head_eq.
    rewrite (levenshtein_sym r2), levenshtein_drop_head_eq. done. }
  split; [|split].
  - apply elem_of_edit1. right; right; right. apply elem_of_edit1_swap.
    exists l, r0, r1, r2. split; [|done].
    unfold word. clear. induction l as [|c l IH]; [apply splits_head|].
    by apply (splits_cons c) in IH.
  - unfold editdistance_eval. by rewrite Hlev.
  - assert (Hlen : len w = len word).
    { unfold len, w, word. rewrite !length_append. done. }
    unfold custom_score, editdistance_eval, replace_weight.
    rewrite Hlen, Z.eqb_refl, Hlev.
    unfold w at 1, word at 2. rewrite common_prefix_length_prefix.
    simpl common_prefix_length. rewrite decide_False by congruence.
    unfold len, word. rewrite length_append. simpl. lia.
Qed.

Lemma transposition_score_witness :
  "hlelo" ∈ edit1 "hello"
  ∧ editdistance_eval "hlelo" "hello" = 2%Z
  ∧ custom_score "hlelo" "hello" = (4 + len "lo")%Z.
Proof. apply (transposition_score "h" "lo" "e" "l"). discriminate. Defined.

(** ** Custom words *)

Lemma lower_ascii_idemp (c : ascii) :
  Str.lower_ascii (Str.lower_ascii c) = Str.lower_ascii c.
Proof. destruct c as [[] [] [] [] [] [] [] []]; reflexivity. Qed.

Lemma lower_idemp (s : string) : Str.lower (Str.lower s) = Str.lower s.
Proof.
  induction s as [|c s IH]; [done|]. simpl. by rewrite lower_ascii_idemp, IH.
Qed.

(** The keys of the probability table are vocabulary members on every
    reachable state. *)
Lemma reachable_prob_in_vocabulary (st : engine) :
  reachable st → ∀ w, is_Some (prob_of_word st !! w) → w ∈ vocabulary st.
Proof.
  induction 1 as [words|sym all_words file sc_file|st word _ IH|st word _ IH
                 |st sc fw _ IH|st sc _ IH|st o s a _ IH]; intros w.
  - simpl. rewrite <- elem_of_dom, dom_probabilities, dom_Counter. done.
  - destruct file as [[ws fb]|], sc_file; simpl;
      rewrite <- elem_of_dom, dom_probabilities, dom_Counter; set_solver.
  - simpl. destruct (decide (Str.lower word = w)) as [->|Hne]; [set_solver|].
    rewrite lookup_insert_ne by done. intros Hw. apply IH in Hw. set_solver.
  - simpl. destruct (decide (word = w)) as [->|Hne].
    + rewrite lookup_delete_eq. by intros [? ?].
    + rewrite lookup_delete_ne by done. intros Hw. apply IH in Hw. set_solver.
  - unfold add_shortcut. case_decide; [|exact (IH w)].
    simpl. destruct (decide (Str.lower (Str.lower fw) = w)) as [->|Hne]; [set_solver|].
    rewrite lookup_insert_ne by done. intros Hw. apply IH in Hw. set_solver.
  - unfold remove_shortcut. case_decide; exact (IH w).
  - exact (IH w).
Qed.

(** X5: on every reachable state the vocabulary is exactly the key set of
    [prob_of_word]: the constructors build both from the same tokens, and
    [add_custom_word], [add_shortcut] and the deletion of a custom word
    change both together. *)
Theorem vocabulary_is_probability_domain (st : engine) :
  reachable st → dom (prob_of_word st) = vocabulary st.
Proof.
  intros Hreach. apply set_eq. intros w. rewrite elem_of_dom. split.
  - by apply reachable_prob_in_vocabulary.
  - by apply reachable_consistent.
Qed.

Lemma vocabulary_is_probability_domain_witness :
  dom (prob_of_word (add_custom_word two_word_engine "Rocq"))
  = vocabulary (add_custom_word two_word_engine "Rocq").
Proof.
  apply (vocabulary_is_probability_domain (add_custom_word two_word_engine "Rocq")).
  apply reach_add_custom_word. exact (reach_init no_sym_spell ["hello"; "world"] None None).
Defined.

(** X6: a word added with [add_custom_word] is, in its lower-cased form,
    returned as it is by the hybrid pipeline from then on, with the
    reserved probability 0.001 and context probability 1.0, whatever the
    state before and the preceding words. *)
Theorem custom_word_is_returned_as_is
    (st : engine) (word : string) (previous_words : list string) :
  correct_spelling_hybrid (add_custom_word st word) previous_words (Str.lower word)
  = Returns [Row3 (Str.lower word) custom_word_prob 1].
Proof.
  unfold correct_spelling_hybrid, correct_spelling_hybrid_over.
  rewrite decide_True by (simpl; set_solver).
  unfold prob_at. simpl. by rewrite lookup_insert_eq.
Qed.

(** X7: [add_custom_word] is idempotent up to letter case: adding a word
    again, in any capitalisation, leaves the state as it is. *)
Theorem add_custom_word_idempotent (st : engine) (word word' : string) :
  Str.lower word' = Str.lower word →
  add_custom_word (add_custom_word st word) word' = add_custom_word st word.
Proof.
  intros Hcase. unfold add_custom_word. simpl. rewrite Hcase.
  f_equal; [set_solver | apply insert_insert_eq | set_solver].
Qed.

Lemma add_custom_word_idempotent_witness :
  add_custom_word (add_custom_word two_word_engine "rocq") "Rocq"
  = add_custom_word two_word_engine "rocq".
Proof. apply (add_custom_word_idempotent two_word_engine "rocq" "Rocq"). reflexivity. Defined.

(** X8: deleting a custom word in the custom-word dialog undoes
    [add_custom_word] when the word was new: on a reachable state where the
    lower-cased word is neither in the vocabulary nor a custom word, adding
    it and deleting it gives back the state.  In every case the word is
    afterwards outside the vocabulary and without a probability, also when
    it had been a corpus word before it was added. *)
Theorem delete_word_undoes_add_custom_word (st : engine) (word : string) :
  let st' := delete_word (add_custom_word st word) (Str.lower word) in
  ((Str.lower word ∉ vocabulary st')
   ∧ (prob_of_word st' !! Str.lower word = None)
   ∧ (Str.lower word ∉ custom_words st'))
  ∧ (reachable st → Str.lower word ∉ vocabulary st →
     Str.lower word ∉ custom_words st → st' = st).
Proof.
  simpl. split.
  - split; [set_solver|]. split; [apply lookup_delete_eq | set_solver].
  - intros Hreach Hvoc Hcustom.
    assert (Hprob : prob_of_word st !! Str.lower word = None).
    { apply eq_None_not_Some. intros Hsome.
      by apply Hvoc, reachable_prob_in_vocabulary. }
    destruct st as [voc pw pb pt cw sc fb sym]. unfold delete_word, add_custom_word.
    simpl in *. f_equal.
    + set_solver.
    + by apply delete_insert_id.
    + set_solver.
Qed.

Lemma delete_word_undoes_add_custom_word_witness :
  delete_word (add_custom_word two_word_engine "Rocq") (Str.lower "Rocq")
  = two_word_engine.
Proof.
  apply (delete_word_undoes_add_custom_word two_word_engine "Rocq").
  - exact (reach_init no_sym_spell ["hello"; "world"] None None).
  - apply (bool_decide_unpack _). vm_compute. exact I.
  - apply (bool_decide_unpack _). vm_compute. exact I.
Defined.

(** ** Shortcuts *)

Lemma shortcuts_add_shortcut (st : engine) (shortcut full_word : string) :
  shortcuts (add_shortcut st shortcut full_word)
  = <[Str.lower shortcut := Str.lower full_word]> (shortcuts st).
Proof. unfold add_shortcut. by case_decide. Qed.

Lemma sym_spell_add_shortcut (st : engine) (shortcut full_word : string) :
  sym_spell (add_shortcut st shortcut full_word) = sym_spell st.
Proof. unfold add_shortcut. by case_decide. Qed.

Lemma lower_nonempty (s : string) : s ≠ EmptyString → Str.lower s ≠ EmptyString.
Proof. by destruct s. Qed.

(** X9: registering a shortcut.  After [add_shortcut(shortcut, full_word)]
    every spelling of the shortcut that differs only in letter case is
    reported by [is_shortcut] and expands to the lower-cased full word, and
    when the full word is not empty the enhanced pipeline answers such a
    token with that expansion alone; the expansion of every other token
    is what it was; and the lower-cased full word is in the vocabulary. *)
Theorem add_shortcut_registers
    (st : engine) (shortcut full_word query : string) (previous_words : list string) :
  let st' := add_shortcut st shortcut full_word in
  (Str.lower query = Str.lower shortcut →
     get_shortcut_expansion st' query = Some (Str.lower full_word)
     ∧ is_shortcut st' query = true
     ∧ (full_word ≠ EmptyString →
        correct_spelling_enhanced st' previous_words query
        = [Row4 (Str.lower full_word) 1 1 "Shortcut expansion"]))
  ∧ (Str.lower query ≠ Str.lower shortcut →
     get_shortcut_expansion st' query = get_shortcut_expansion st query)
  ∧ Str.lower full_word ∈ vocabulary st'.
Proof.
  intros st'. split; [|split].
  - intros Hcase.
    assert (Hexp : get_shortcut_expansion st' query = Some (Str.lower full_word)).
    { unfold get_shortcut_expansion, st'.
      by rewrite shortcuts_add_shortcut, Hcase, lookup_insert_eq. }
    split; [exact Hexp|]. split.
    + unfold is_shortcut. apply bool_decide_eq_true, elem_of_dom.
      unfold get_shortcut_expansion in Hexp. by rewrite Hexp.
    + intros Hfull. unfold correct_spelling_enhanced. rewrite Hexp.
      apply lower_nonempty in Hfull. by destruct (Str.lower full_word).
  - intros Hcase. unfold get_shortcut_expansion, st'.
    by rewrite shortcuts_add_shortcut, lookup_insert_ne.
  - unfold st', add_shortcut. case_decide as Hvoc.
    + simpl. rewrite lower_idemp. set_solver.
    + exact Hvoc.
Qed.

Lemma add_shortcut_registers_witness :
  get_shortcut_expansion (add_shortcut two_word_engine "bcz" "Because") "BCZ"
  = Some (Str.lower "Because")
  ∧ is_shortcut (add_shortcut two_word_engine "bcz" "Because") "BCZ" = true
  ∧ ("Because" ≠ EmptyString →
     correct_spelling_enhanced (add_shortcut two_word_engine "bcz" "Because") [] "BCZ"
     = [Row4 (Str.lower "Because") 1 1 "Shortcut expansion"]).
Proof.
  apply (add_shortcut_registers two_word_engine "bcz" "Because" "BCZ" []).
  reflexivity.
Defined.

(** X10: removing a shortcut that was just added.  [remove_shortcut]
    reports true and the shortcut has no expansion afterwards.  When the
    shortcut was not registered before, the state is the one before the
    addition if the full word was in the vocabulary, and otherwise that
    state with the full word added as a custom word: removing a shortcut
    does not take its full word back out of the vocabulary. *)
Theorem remove_shortcut_after_add_shortcut (st : engine) (shortcut full_word : string) :
  let st1 := add_shortcut st shortcut full_word in
  let st2 := (remove_shortcut st1 shortcut).1 in
  (remove_shortcut st1 shortcut).2 = true
  ∧ get_shortcut_expansion st2 shortcut = None
  ∧ Str.lower full_word ∈ vocabulary st2
  ∧ (get_shortcut_expansion st shortcut = None →
     st2 = if decide (Str.lower full_word ∈ vocabulary st) then st
           else add_custom_word st full_word).
Proof.
  intros st1 st2.
  assert (Hin : Str.lower shortcut ∈ dom (shortcuts st1)).
  { unfold st1. rewrite shortcuts_add_shortcut, dom_insert_L. set_solver. }
  assert (Hst2 : remove_shortcut st1 shortcut
                 = (set_shortcuts st1 (delete (Str.lower shortcut) (shortcuts st1)), true)).
  { unfold remove_shortcut. by rewrite decide_True. }
  unfold st2. rewrite Hst2. simpl. split; [done|]. split; [|split].
  - unfold get_shortcut_expansion. simpl. apply lookup_delete_eq.
  - unfold st1, add_shortcut. case_decide as Hvoc.
    + simpl. rewrite lower_idemp. set_solver.
    + exact Hvoc.
  - unfold get_shortcut_expansion. intros Hnew.
    assert (Hdel : delete (Str.lower shortcut) (shortcuts st1) = shortcuts st).
    { unfold st1. rewrite shortcuts_add_shortcut. by apply delete_insert_id. }
    rewrite Hdel. unfold st1, add_shortcut. simpl.
    destruct (decide (Str.lower full_word ∈ vocabulary st)) as [Hvoc|Hvoc].
    + rewrite decide_False by (intros Hn; by apply Hn).
      by destruct st.
    + rewrite decide_True by done.
      unfold add_custom_word, set_shortcuts. simpl. by rewrite lower_idemp.
Qed.

Lemma remove_shortcut_after_add_shortcut_witness :
  (remove_shortcut (add_shortcut two_word_engine "bcz" "Because") "bcz").1
  = if decide (Str.lower "Because" ∈ vocabulary two_word_engine) then two_word_engine
    else add_custom_word two_word_engine "Because".
Proof.
  apply (remove_shortcut_after_add_shortcut two_word_engine "bcz" "Because").
  reflexivity.
Defined.

(** ** Feedback is local *)

Lemma feedback_score_of_record (fb fb' : gmap string (gmap string feedback))
    (o s : string) :
  feedback_record fb' o s = feedback_record fb o s →
  feedback_score fb' o s = feedback_score fb o s.
Proof.
  intros Hsame. destruct (feedback_record fb o s) as [r|] eqn:Hr.
  - by rewrite (feedback_score_record fb' o s r), (feedback_score_record fb o s r).
  - by rewrite !feedback_score_no_record.
Qed.

Lemma feedback_record_frame (fb : gmap string (gmap string feedback))
    (o s o' s' : string) (accept : bool) :
  (o', s') ≠ (o, s) →
  feedback_record (record_feedback fb o s accept) o' s' = feedback_record fb o' s'.
Proof.
  intros Hother. unfold feedback_record, record_feedback.
  destruct (decide (o' = o)) as [->|Ho'].
  - assert (Hs' : s ≠ s') by congruence.
    rewrite lookup_insert_eq. simpl. rewrite lookup_insert_ne by done.
    destruct (decide (o ∈ dom fb)) as [Ho|Ho].
    + apply elem_of_dom in Ho as [inner Hinner]. rewrite Hinner. simpl.
      case_decide; [done|]. by rewrite lookup_insert_ne.
    + apply not_elem_of_dom in Ho. rewrite lookup_insert_eq, Ho. simpl.
      case_decide; [done|]. by rewrite lookup_insert_ne.
  - rewrite lookup_insert_ne by done.
    case_decide; [done|]. by rewrite lookup_insert_ne.
Qed.

(** X11: feedback is local to its pair.  Recording an answer for
    (original, suggested) leaves the recorded counters of every other pair
    as they are, so the scores [context_aware_score] and
    [enhanced_context_score] give to every other pair do not change. *)
Theorem feedback_is_local
    (st : engine) (o s o' s' : string) (accept : bool) (previous_words : list string) :
  (o', s') ≠ (o, s) →
  let st' := record_user_feedback st o s accept in
  feedback_record (user_feedback st') o' s' = feedback_record (user_feedback st) o' s'
  ∧ context_aware_score st' s' o' previous_words
    = context_aware_score st s' o' previous_words
  ∧ enhanced_context_score st' s' o' previous_words
    = enhanced_context_score st s' o' previous_words.
Proof.
  intros Hother st'.
  pose proof (feedback_record_frame (user_feedback st) o s o' s' accept Hother) as Hrec.
  pose proof (feedback_score_of_record _ _ _ _ Hrec) as Hscore.
  split; [exact Hrec|].
  unfold context_aware_score, enhanced_context_score, st'.
  change (user_feedback (record_user_feedback st o s accept))
    with (record_feedback (user_feedback st) o s accept).
  rewrite Hscore. split; reflexivity.
Qed.

Lemma feedback_is_local_witness :
  let st' := record_user_feedback two_word_engine "helo" "hello" true in
  feedback_record (user_feedback st') "helo" "help"
  = feedback_record (user_feedback two_word_engine) "helo" "help"
  ∧ context_aware_score st' "help" "helo" ["say"]
    = context_aware_score two_word_engine "help" "helo" ["say"]
  ∧ enhanced_context_score st' "help" "helo" ["say"]
    = enhanced_context_score two_word_engine "help" "helo" ["say"].
Proof.
  apply (feedback_is_local two_word_engine "helo" "hello" "helo" "help" true ["say"]).
  intros [=].
Defined.

(** ** What the enhanced pipeline reads *)

(** X12: the result of [correct_spelling_enhanced] is determined by the
    shortcut table and the SymSpell object.  Two states that agree on
    these give the same result for every token and any preceding words, so
    custom words, the vocabulary, the n-gram tables and recorded feedback
    have no effect on it. *)
Theorem enhanced_reads_shortcuts_and_symspell
    (st st' : engine) (previous_words previous_words' : list string) (word : string) :
  shortcuts st' = shortcuts st → sym_spell st' = sym_spell st →
  correct_spelling_enhanced st' previous_words' word
  = correct_spelling_enhanced st previous_words word.
Proof.
  intros Hsc Hsym. unfold correct_spelling_enhanced, get_shortcut_expansion.
  by rewrite Hsc, Hsym.
Qed.

Lemma enhanced_reads_shortcuts_and_symspell_witness :
  correct_spelling_enhanced
    (record_user_feedback (add_custom_word sample_engine "Rocq") "foks" "fox" false)
    ["the"; "quick"] "rocq"
  = correct_spelling_enhanced sample_engine [] "rocq".
Proof.
  apply (enhanced_reads_shortcuts_and_symspell sample_engine
           (record_user_feedback (add_custom_word sample_engine "Rocq") "foks" "fox" false)
           [] ["the"; "quick"] "rocq"); reflexivity.
Defined.

(** ** Persistence *)

(** X13: what survives a restart.  When an engine is constructed over a
    token stream from the two files a state was saved to, its custom
    words, feedback table and shortcuts are those of the saved state.  Its
    vocabulary and probability table come from the token stream alone:
    [build_vocabulary] runs before the custom words are loaded, so a saved
    custom word that is not a token is a custom word but not a vocabulary
    member, and has no probability. *)
Theorem restart_restores_tables_not_vocabulary
    (st : engine) (sym : SymSpell) (all_words : list string) :
  let st' := enhanced_init sym all_words
               (Some (save_custom_words st)) (Some (save_shortcuts st)) in
  custom_words st' = custom_words st
  ∧ user_feedback st' = user_feedback st
  ∧ shortcuts st' = shortcuts st
  ∧ vocabulary st' = list_to_set all_words
  ∧ dom (prob_of_word st') = list_to_set all_words.
Proof.
  simpl. split; [apply list_to_set_elements_L|]. split; [done|]. split; [done|].
  split; [set_solver|]. by rewrite dom_probabilities, dom_Counter.
Qed.

(** ** The probability tables as relative frequencies *)

Section frequency_facts.
Context `{Countable K}.
Implicit Types (l : list K) (m : gmap K nat).

Lemma occurrences_cons (k a : K) l :
  occurrences k (a :: l) = ((if decide (a = k) then 1 else 0) + occurrences k l)%nat.
Proof. unfold occurrences. rewrite filter_cons. by case_decide. Qed.

Lemma occurrences_le_length (k : K) l : (occurrences k l ≤ length l)%nat.
Proof. unfold occurrences. apply length_filter. Qed.

Lemma count_from_lookup l m (k : K) :
  default 0%nat (count_from m l !! k)
  = (default 0%nat (m !! k) + occurrences k l)%nat.
Proof.
  revert m. induction l as [|a l IH]; intros m.
  - unfold occurrences. simpl. lia.
  - change (count_from m (a :: l))
      with (count_from (<[a := S (default 0%nat (m !! a))]> m) l).
    rewrite IH, occurrences_cons. destruct (decide (a = k)) as [->|Hne].
    + rewrite lookup_insert_eq. simpl. lia.
    + rewrite lookup_insert_ne by done. lia.
Qed.

Lemma Counter_lookup l (k : K) :
  Counter l !! k = if decide (k ∈ l) then Some (occurrences k l) else None.
Proof.
  pose proof (count_from_lookup l ∅ k) as Hc.
  change (count_from ∅ l) with (Counter l) in Hc. rewrite lookup_empty in Hc.
  simpl in Hc. case_decide as Hin.
  - assert (Hdom : k ∈ dom (Counter l)) by (rewrite dom_Counter; set_solver).
    apply elem_of_dom in Hdom as [c Hk]. rewrite Hk in Hc |- *. simpl in Hc.
    by rewrite Hc.
  - apply not_elem_of_dom. rewrite dom_Counter. set_solver.
Qed.

Lemma probabilities_Counter_lookup l (k : K) :
  probabilities (Counter l) !! k
  = if decide (k ∈ l) then Some (Qc_of_nat (occurrences k l) / Qc_of_nat (length l))%Qc
    else None.
Proof.
  unfold probabilities. rewrite lookup_fmap, Counter_lookup, sum_counts_Counter.
  by case_decide.
Qed.

Lemma probabilities_Counter_nil : probabilities (Counter ([] : list K)) = ∅.
Proof. unfold probabilities, Counter. simpl. apply fmap_empty. Qed.
End frequency_facts.

Lemma length_nltk_bigrams (l : list string) :
  length (nltk_bigrams l) = (length l - 1)%nat.
Proof.
  induction l as [|a [|b l] IH]; [done..|].
  change (S (length (nltk_bigrams (b :: l))) = (length (a :: b :: l) - 1)%nat).
  rewrite IH. simpl. lia.
Qed.

Lemma length_nltk_trigrams (l : list string) :
  length (nltk_trigrams l) = (length l - 2)%nat.
Proof.
  induction l as [|a [|b [|c l]] IH]; [done..|].
  change (S (length (nltk_trigrams (b :: c :: l)))
          = (length (a :: b :: c :: l) - 2)%nat).
  rewrite IH. simpl. lia.
Qed.

(** X14: the stored probabilities are relative frequencies.  After
    [build_vocabulary] over a token list, the probability stored for a
    token is its number of occurrences divided by the number of tokens,
    the one stored for a pair or a triple is its number of occurrences
    among the consecutive pairs or triples divided by their number, and
    what does not occur has no entry. *)
Theorem stored_probabilities_are_frequencies
    (st : engine) (all_words : list string)
    (w : string) (bg : string * string) (tg : string * string * string) :
  let st' := build_vocabulary st all_words in
  prob_of_word st' !! w
  = (if decide (w ∈ all_words)
     then Some (Qc_of_nat (occurrences w all_words) / Qc_of_nat (length all_words))%Qc
     else None)
  ∧ prob_of_bigram st' !! bg
    = (if decide (bg ∈ nltk_bigrams all_words)
       then Some (Qc_of_nat (occurrences bg (nltk_bigrams all_words))
                  / Qc_of_nat (length all_words - 1))%Qc
       else None)
  ∧ prob_of_trigram st' !! tg
    = (if decide (tg ∈ nltk_trigrams all_words)
       then Some (Qc_of_nat (occurrences tg (nltk_trigrams all_words))
                  / Qc_of_nat (length all_words - 2))%Qc
       else None).
Proof.
  simpl. rewrite !probabilities_Counter_lookup.
  by rewrite length_nltk_bigrams, length_nltk_trigrams.
Qed.

Lemma nltk_bigrams_short (l : list string) :
  ¬ (2 ≤ length l)%nat → nltk_bigrams l = [].
Proof. destruct l as [|a [|b l]]; simpl; [done..|lia]. Qed.

Lemma nltk_trigrams_short (l : list string) :
  ¬ (3 ≤ length l)%nat → nltk_trigrams l = [].
Proof. destruct l as [|a [|b [|c l]]]; simpl; [done..|lia]. Qed.

(** X15: the n-gram tables are distributions or empty.  After
    [build_vocabulary], the bigram probabilities sum to 1 when there are at
    least two tokens and the table is empty otherwise; the trigram
    probabilities sum to 1 when there are at least three tokens and the
    table is empty otherwise.  Over no tokens at all the word table is
    empty too, no division takes place, and the vocabulary is the set of
    custom words. *)
Theorem ngram_tables_are_distributions (st : engine) (all_words : list string) :
  let st' := build_vocabulary st all_words in
  (if decide (2 ≤ length all_words)%nat
   then sum_probs (prob_of_bigram st') = 1%Qc else prob_of_bigram st' = ∅)
  ∧ (if decide (3 ≤ length all_words)%nat
     then sum_probs (prob_of_trigram st') = 1%Qc else prob_of_trigram st' = ∅)
  ∧ prob_of_word (build_vocabulary st []) = ∅
  ∧ vocabulary (build_vocabulary st []) = custom_words st.
Proof.
  simpl. split; [|split; [|split]].
  - case_decide as Hlen.
    + apply sum_probs_probabilities.
      rewrite sum_counts_Counter, length_nltk_bigrams. lia.
    + rewrite (nltk_bigrams_short _ Hlen). apply probabilities_Counter_nil.
  - case_decide as Hlen.
    + apply sum_probs_probabilities.
      rewrite sum_counts_Counter, length_nltk_trigrams. lia.
    + rewrite (nltk_trigrams_short _ Hlen). apply probabilities_Counter_nil.
  - apply probabilities_Counter_nil.
  - set_solver.
Qed.

(** ** Stored probabilities lie in (0, 1] *)

Lemma Qc_of_nat_le (a b : nat) : (a ≤ b)%nat → (Qc_of_nat a <= Qc_of_nat b)%Qc.
Proof.
  intros Hab. unfold Qc_of_nat.
  apply (proj1 (Z2Qc_inj_le (Z.of_nat a) (Z.of_nat b))). lia.
Qed.

Lemma Qcdiv_le_1 (a b : Qc) : (0 < b → a <= b → a / b <= 1)%Qc.
Proof.
  intros Hb Hab. unfold Qcdiv.
  rewrite <- (Qcmult_inv_r b) by (intros ->; by apply (irreflexivity Qclt 0%Qc)).
  apply Qcmult_le_compat_r; [done|]. by apply Qclt_le_weak, Qcinv_pos.
Qed.

Lemma probabilities_Counter_unit `{Countable K} (l : list K) (k : K) (p : Qc) :
  probabilities (Counter l) !! k = Some p → (0 < p)%Qc ∧ (p <= 1)%Qc.
Proof.
  intros Hp. split; [by apply (probabilities_positive l k)|].
  rewrite probabilities_Counter_lookup in Hp. case_decide as Hin; [|done].
  injection Hp as <-.
  assert (Hlen : (0 < length l)%nat) by (destruct l; [by apply elem_of_nil in Hin | simpl; lia]).
  apply Qcdiv_le_1; [by apply Qc_of_nat_pos|].
  apply Qc_of_nat_le, occurrences_le_length.
Qed.

Lemma custom_word_prob_unit : (0 < custom_word_prob)%Qc ∧ (custom_word_prob <= 1)%Qc.
Proof. split; [reflexivity | by vm_compute]. Qed.

Lemma prob_floor_unit : (0 < prob_floor)%Qc ∧ (prob_floor <= 1)%Qc.
Proof. split; [reflexivity | by vm_compute]. Qed.

Lemma add_custom_word_unit_probabilities (st : engine) (word : string) :
  unit_probabilities st → unit_probabilities (add_custom_word st word).
Proof.
  intros (Hw & Hbg & Htg). split; [|by split].
  intros w p. simpl. destruct (decide (Str.lower word = w)) as [->|Hne].
  - rewrite lookup_insert_eq. intros [= <-]. apply custom_word_prob_unit.
  - rewrite lookup_insert_ne by done. apply Hw.
Qed.

Lemma reachable_unit_probabilities (st : engine) :
  reachable st → unit_probabilities st.
Proof.
  induction 1 as [words|sym all_words file sc_file|st word _ IH|st word _ IH
                 |st sc fw _ IH|st sc _ IH|st o s a _ IH].
  - split; [|split]; intros k p; simpl;
      [apply probabilities_Counter_unit..|by rewrite lookup_empty].
  - destruct file as [[ws fb]|], sc_file; (split; [|split]); intros k p; simpl;
      apply probabilities_Counter_unit.
  - by apply add_custom_word_unit_probabilities.
  - destruct IH as (Hw & Hbg & Htg). split; [|by split].
    intros w p. simpl. rewrite lookup_delete_Some. intros [_ Hp]. by apply (Hw w).
  - unfold add_shortcut. case_decide; [|exact IH].
    by apply add_custom_word_unit_probabilities.
  - unfold remove_shortcut. case_decide; exact IH.
  - exact IH.
Qed.

(** X16: on every reachable state each stored word, bigram and trigram
    probability is greater than 0 and at most 1. *)
Theorem stored_probabilities_in_unit_interval (st : engine) :
  reachable st →
  (∀ w p, prob_of_word st !! w = Some p → (0 < p)%Qc ∧ (p <= 1)%Qc)
  ∧ (∀ bg p, prob_of_bigram st !! bg = Some p → (0 < p)%Qc ∧ (p <= 1)%Qc)
  ∧ (∀ tg p, prob_of_trigram st !! tg = Some p → (0 < p)%Qc ∧ (p <= 1)%Qc).
Proof. apply reachable_unit_probabilities. Qed.

Lemma stored_probabilities_in_unit_interval_witness :
  (0 < custom_word_prob)%Qc ∧ (custom_word_prob <= 1)%Qc.
Proof.
  apply (stored_probabilities_in_unit_interval (add_custom_word two_word_engine "rocq"))
    with (w := "rocq").
  - apply reach_add_custom_word.
    exact (reach_init no_sym_spell ["hello"; "world"] None None).
  - reflexivity.
Defined.

(** ** The range of the scores *)

Lemma ln_unit_nonpos (p : Qc) : (0 < p)%Qc → (p <= 1)%Qc → (ln (Q2R p) <= 0)%R.
Proof.
  intros Hpos Hle.
  apply Qlt_Rlt in Hpos. apply Qle_Rle in Hle.
  change (Q2R (this 0%Qc)) with (Q2R 0) in Hpos.
  change (Q2R (this 1%Qc)) with (Q2R 1) in Hle.
  rewrite RMicromega.Q2R_0 in Hpos. rewrite RMicromega.Q2R_1 in Hle.
  destruct (Rle_lt_or_eq_dec _ _ Hle) as [Hlt|Heq].
  - pose proof (ln_increasing _ _ Hpos Hlt) as Hln. rewrite ln_1 in Hln. lra.
  - rewrite Heq, ln_1. lra.
Qed.

Lemma neg_log_unit (p : Qc) :
  (0 < p)%Qc → (p <= 1)%Qc → ∃ x, X.opp (np_log p) = Fin x ∧ (0 <= x)%R.
Proof.
  intros Hpos Hle. rewrite np_log_positive by done. simpl.
  eexists. split; [reflexivity|]. pose proof (ln_unit_nonpos p Hpos Hle). lra.
Qed.

Lemma custom_score_nonneg (suggestion original_word : string) :
  (0 ≤ custom_score suggestion original_word)%Z.
Proof.
  pose proof (common_prefix_length_bounds suggestion original_word) as Hcpl.
  unfold custom_score, editdistance_eval, replace_weight, insert_weight,
    delete_weight, swap_weight.
  repeat case_match; lia.
Qed.

Lemma combined_score_unit (st : engine) (suggestion original_word : string) :
  unit_probabilities st →
  ∃ x, combined_score st suggestion original_word = Fin x
       ∧ (IZR (custom_score suggestion original_word) <= x)%R.
Proof.
  intros (Hw & _ & _). unfold combined_score.
  assert (Hp : (0 < default prob_floor (prob_of_word st !! suggestion))%Qc
               ∧ (default prob_floor (prob_of_word st !! suggestion) <= 1)%Qc).
  { destruct (prob_of_word st !! suggestion) as [p|] eqn:Hp; simpl;
      [by apply (Hw suggestion) | apply prob_floor_unit]. }
  destruct (neg_log_unit _ (proj1 Hp) (proj2 Hp)) as (x & -> & Hx).
  simpl. eexists. split; [reflexivity|]. lra.
Qed.

(** X17: [combined_score] is a finite number on every reachable state,
    never NaN or infinite, and it is at least the structural score
    [custom_score], which is at least 0: the probability term
    [-log(prob)] is never negative. *)
Theorem combined_score_finite_and_bounded
    (st : engine) (suggestion original_word : string) :
  reachable st →
  ∃ x, combined_score st suggestion original_word = Fin x
       ∧ (0 <= IZR (custom_score suggestion original_word) <= x)%R.
Proof.
  intros Hreach.
  destruct (combined_score_unit st suggestion original_word
              (reachable_unit_probabilities st Hreach)) as (x & Hx & Hle).
  exists x. split; [exact Hx|]. split; [|exact Hle].
  apply IZR_le, custom_score_nonneg.
Qed.

Lemma combined_score_finite_and_bounded_witness :
  ∃ x, combined_score two_word_engine "hello" "helo" = Fin x
       ∧ (0 <= IZR (custom_score "hello" "helo") <= x)%R.
Proof.
  apply (combined_score_finite_and_bounded two_word_engine "hello" "helo").
  exact (reach_init no_sym_spell ["hello"; "world"] None None).
Defined.

Lemma Qcdiv_nonneg (a b : Qc) : (0 <= a → 0 < b → 0 <= a / b)%Qc.
Proof.
  intros Ha Hb. unfold Qcdiv.
  replace 0%Qc with (0 * / b)%Qc by ring.
  apply Qcmult_le_compat_r; [done|]. by apply Qclt_le_weak, Qcinv_pos.
Qed.

Lemma Qc_of_nat_nonneg (a : nat) : (0 <= Qc_of_nat a)%Qc.
Proof.
  unfold Qc_of_nat. rewrite <- Z2Qc_inj_0.
  apply (proj1 (Z2Qc_inj_le 0 (Z.of_nat a))). lia.
Qed.

Lemma feedback_score_range
    (fb : gmap string (gmap string feedback)) (original_word suggestion : string) :
  (feedback_score fb original_word suggestion = PInf
   ∧ ∃ r, feedback_record fb original_word suggestion = Some r
          ∧ (0 < accepted r)%nat ∧ rejected r = 0%nat)
  ∨ (∃ x, feedback_score fb original_word suggestion = Fin x ∧ (0 <= x)%R).
Proof.
  destruct (feedback_record fb original_word suggestion) as [r|] eqn:Hr.
  - rewrite (feedback_score_record _ _ _ r Hr). unfold acceptance_rate.
    case_decide as Htotal; [|right; exists 0%R; split; [done | lra]].
    destruct (decide (rejected r = 0%nat)) as [Hrej|Hrej].
    + left. split; [|exists r; split; [done | lia]].
      rewrite Hrej, Nat.add_0_r in Htotal |- *.
      rewrite Qcdiv_diag.
      * replace (1 - 1)%Qc with 0%Qc by ring.
        unfold np_log. rewrite decide_True by done.
        change (X.opp NInf) with PInf. apply scale_PInf_positive. lra.
      * intros Heq. pose proof (Qc_of_nat_pos _ Htotal) as Hpos.
        rewrite Heq in Hpos. by apply (irreflexivity Qclt 0%Qc).
    + right.
      assert (Hlt : (Qc_of_nat (accepted r) / Qc_of_nat (accepted r + rejected r) < 1)%Qc).
      { apply Qcdiv_lt_1; [apply Qc_of_nat_pos | apply Qc_of_nat_lt]; lia. }
      assert (Hge : (0 <= Qc_of_nat (accepted r) / Qc_of_nat (accepted r + rejected r))%Qc).
      { apply Qcdiv_nonneg; [apply Qc_of_nat_nonneg | by apply Qc_of_nat_pos]. }
      set (rate := (Qc_of_nat (accepted r) / Qc_of_nat (accepted r + rejected r))%Qc) in *.
      assert (Hpos : (0 < 1 - rate)%Qc) by (by apply Qclt_minus_iff in Hlt).
      assert (Hle : (1 - rate <= 1)%Qc).
      { apply Qcle_minus_iff. by replace (1 + - (1 - rate))%Qc with rate by ring. }
      destruct (neg_log_unit _ Hpos Hle) as (x & -> & Hx).
      simpl. eexists. split; [reflexivity|]. nra.
  - right. exists 0%R. split; [by apply feedback_score_no_record | lra].
Qed.

(** X18: the feedback term is never negative.  The term that
    [context_aware_score] and [enhanced_context_score] add for recorded
    feedback is either a finite number that is at least 0, or plus
    infinity, and it is plus infinity only for a pair that has been
    accepted at least once and never rejected. *)
Theorem feedback_term_never_negative
    (fb : gmap string (gmap string feedback)) (original_word suggestion : string) :
  (feedback_score fb original_word suggestion = PInf
   ∧ ∃ r, feedback_record fb original_word suggestion = Some r
          ∧ (0 < accepted r)%nat ∧ rejected r = 0%nat)
  ∨ (∃ x, feedback_score fb original_word suggestion = Fin x ∧ (0 <= x)%R).
Proof. apply feedback_score_range. Qed.

Lemma ngram_score_unit (st : engine) (kb kt : R)
    (suggestion : string) (previous_words : list string) :
  unit_probabilities st → (0 <= kb)%R → (0 <= kt)%R →
  ∃ x, ngram_score st kb kt suggestion previous_words = Fin x ∧ (0 <= x)%R.
Proof.
  intros (_ & Hbg & Htg) Hkb Hkt. unfold ngram_score.
  set (bg := prob_of_bigram st !! (from_end previous_words 1, suggestion)).
  set (tg := prob_of_trigram st
               !! (from_end previous_words 2, from_end previous_words 1, suggestion)).
  assert (Hb : (0 < default prob_floor bg)%Qc ∧ (default prob_floor bg <= 1)%Qc).
  { unfold bg. destruct (prob_of_bigram st !! _) as [p|] eqn:Hp; simpl;
      [by apply Hbg in Hp | apply prob_floor_unit]. }
  assert (Ht : (0 < default prob_floor tg)%Qc ∧ (default prob_floor tg <= 1)%Qc).
  { unfold tg. destruct (prob_of_trigram st !! _) as [p|] eqn:Hp; simpl;
      [by apply Htg in Hp | apply prob_floor_unit]. }
  destruct (neg_log_unit _ (proj1 Hb) (proj2 Hb)) as (xb & -> & Hxb).
  destruct (neg_log_unit _ (proj1 Ht) (proj2 Ht)) as (xt & -> & Hxt).
  repeat case_decide; simpl; eexists; (split; [reflexivity|]); nra.
Qed.

(** X19: the context score is never NaN and never minus infinity.  On
    every reachable state [context_aware_score] is either plus infinity or
    a finite number not below the structural score minus 3, the custom-word
    bonus; so the comparisons of the sort that uses it as key are all
    between numbers. *)
Theorem context_aware_score_range
    (st : engine) (suggestion original_word : string) (previous_words : list string) :
  reachable st →
  context_aware_score st suggestion original_word previous_words = PInf
  ∨ (∃ x, context_aware_score st suggestion original_word previous_words = Fin x
          ∧ (IZR (custom_score suggestion original_word) - 3 <= x)%R).
Proof.
  intros Hreach. pose proof (reachable_unit_probabilities st Hreach) as Hunit.
  unfold context_aware_score.
  destruct (combined_score_unit st suggestion original_word Hunit) as (xc & -> & Hxc).
  destruct (ngram_score_unit st 2 3 suggestion previous_words Hunit) as (xn & -> & Hxn);
    [lra..|].
  assert (Hbonus : ∃ xb, custom_bonus st suggestion = Fin xb ∧ (-3 <= xb)%R).
  { unfold custom_bonus. case_decide; eexists; (split; [reflexivity|]); lra. }
  destruct Hbonus as (xb & -> & Hxb).
  destruct (feedback_score_range (user_feedback st) original_word suggestion)
    as [[-> _] | (xf & -> & Hxf)].
  - by left.
  - right. simpl. eexists. split; [reflexivity|]. lra.
Qed.

Lemma context_aware_score_range_witness :
  context_aware_score two_word_engine "hello" "helo" ["say"] = PInf
  ∨ (∃ x, context_aware_score two_word_engine "hello" "helo" ["say"] = Fin x
          ∧ (IZR (custom_score "hello" "helo") - 3 <= x)%R).
Proof.
  apply (context_aware_score_range two_word_engine "hello" "helo" ["say"]).
  exact (reach_init no_sym_spell ["hello"; "world"] None None).
Defined.

(** ** Ranking *)

Lemma ltb_lt (x y : xreal) : X.ltb x y = true ↔ X.lt x y.
Proof.
  destruct x as [a| | |], y as [b| | |]; simpl; try done.
  destruct (Rlt_dec a b); split; intros; done.
Qed.

Lemma lt_asym (x y : xreal) : X.lt x y → ¬ X.lt y x.
Proof. destruct x as [a| | |], y as [b| | |]; simpl; try done; lra. Qed.

Lemma lt_cotrans (x y z : xreal) : y ≠ NaN → X.lt x z → X.lt x y ∨ X.lt y z.
Proof.
  destruct x as [a| | |], y as [b| | |], z as [c| | |]; simpl; try tauto.
  intros _ Hac. destruct (Rlt_dec a b); [by left | right; lra].
Qed.

Section ranking_facts.
Context {A : Type} (key : A → xreal).

Lemma insert_by_key_sorted (x : A) (l : list A) :
  (∀ y, y ∈ l → key y ≠ NaN) →
  StronglySorted (not_above key) l →
  StronglySorted (not_above key) (insert_by_key key x l).
Proof.
  intros Hnan Hsorted. induction l as [|y l IH]; simpl.
  - repeat constructor.
  - apply StronglySorted_inv in Hsorted as [Hl Hy].
    destruct (X.ltb (key y) (key x)) eqn:Hlt.
    + apply ltb_lt in Hlt. constructor.
      * apply IH; [|done]. intros z Hz. apply Hnan. by apply list_elem_of_further.
      * apply Forall_forall. intros z Hz.
        rewrite insert_by_key_Permutation in Hz.
        apply elem_of_cons in Hz as [->|Hz].
        -- by apply lt_asym.
        -- rewrite Forall_forall in Hy. by apply Hy.
    + assert (Hxy : not_above key x y).
      { unfold not_above. rewrite <- ltb_lt. by rewrite Hlt. }
      constructor; [by constructor|].
      constructor; [done|]. apply Forall_forall. intros z Hz Hzx.
      rewrite Forall_forall in Hy.
      destruct (lt_cotrans (key z) (key y) (key x)) as [Hzy|Hyx]; [|done|..].
      * apply Hnan, list_elem_of_here.
      * by apply (Hy z Hz).
      * by apply Hxy.
Qed.

(** A sort whose keys are all comparable yields an ascending list. *)
Lemma sort_by_key_sorted (l : list A) :
  (∀ x, x ∈ l → key x ≠ NaN) → StronglySorted (not_above key) (sort_by_key key l).
Proof.
  induction l as [|x l IH]; intros Hnan; simpl; [constructor|].
  apply insert_by_key_sorted.
  - intros y Hy. rewrite sort_by_key_Permutation in Hy.
    by apply Hnan, list_elem_of_further.
  - apply IH. intros y Hy. by apply Hnan, list_elem_of_further.
Qed.

Lemma sort_by_key_ext (key' : A → xreal) (l : list A) :
  (∀ x, key x = key' x) → sort_by_key key l = sort_by_key key' l.
Proof.
  intros Hext. induction l as [|x l IH]; simpl; [done|]. rewrite IH.
  generalize (sort_by_key key' l). intros l'.
  induction l' as [|y l' IH']; simpl; [done|]. by rewrite !Hext, IH'.
Qed.
End ranking_facts.

Lemma comprehension_ext {A B} (f g : A → outcome B) (l : list A) :
  (∀ x, f x = g x) → comprehension f l = comprehension g l.
Proof. intros Hext. induction l as [|x l IH]; simpl; [done|]. by rewrite Hext, IH. Qed.

(** The rows of a comprehension over vocabulary members, written out. *)
Lemma comprehension_rows (st : engine) (mk : string → Qc → row) (guesses : list string) :
  consistent st → (∀ w, w ∈ guesses → w ∈ vocabulary st) →
  comprehension (λ w, p ←! prob_at st w; Returns (mk w p)) guesses
  = Returns ((λ w, mk w (default 0%Qc (prob_of_word st !! w))) <$> guesses).
Proof.
  intros Hst. induction guesses as [|g gs IH]; intros Hvoc; simpl; [done|].
  destruct (prob_at_returns st g Hst) as (p & Hp & ->); [apply Hvoc, list_elem_of_here|].
  simpl. rewrite IH by (intros w Hw; by apply Hvoc, list_elem_of_further).
  simpl. by rewrite Hp.
Qed.

Lemma fmap_row_word (mk : string → Qc → row) (f : string → Qc) (l : list string) :
  (∀ w p, row_word (mk w p) = w) → row_word <$> ((λ w, mk w (f w)) <$> l) = l.
Proof.
  intros Hmk. induction l as [|w l IH]; [done|]. csimpl. by rewrite Hmk, IH.
Qed.

Lemma NoDup_best_guesses (gen : string → gset string) (st : engine) (word : string) :
  NoDup (best_guesses_over gen st word).
Proof. unfold best_guesses_over. apply NoDup_filter, NoDup_elements. Qed.

Lemma xat_has_a_guess (st : engine) :
  vocabulary st = list_to_set rhyme_words →
  ∃ w, w ∈ vocabulary st ∧ w ∈ candidates "xat".
Proof.
  intros Hvoc. exists "cat".
  apply (elem_of_best_guesses candidates st "xat" "cat").
  apply rhyme_words_are_guesses; [done|].
  apply (bool_decide_unpack _). vm_compute. exact I.
Qed.

(** X20: what the plain pipeline returns for a word outside the
    vocabulary that has a guess.  On a reachable state
    [Autocorrection.correct_spelling] returns rows [(w, p)] such that
    [(w, p)] is a row exactly when [w] is a vocabulary member among the
    edit-1 and edit-2 candidates of the word and [p] is its stored
    probability; no word occurs in two rows; and the rows are in ascending
    order of [combined_score]. *)
Theorem plain_rows_are_the_ranked_guesses (st : engine) (word : string) :
  reachable st → word ∉ vocabulary st →
  (∃ w, w ∈ vocabulary st ∧ w ∈ candidates word) →
  ∃ rows, correct_spelling st word = Returns (Some rows)
    ∧ (∀ r, r ∈ rows ↔
         ∃ w p, r = Row2 w p ∧ w ∈ vocabulary st ∧ w ∈ candidates word
                ∧ prob_of_word st !! w = Some p)
    ∧ NoDup (row_word <$> rows)
    ∧ StronglySorted (not_above (λ r, combined_score st (row_word r) word)) rows.
Proof.
  intros Hreach Hword (w0 & Hw0v & Hw0c).
  pose proof (reachable_consistent st Hreach) as Hst.
  pose proof (reachable_unit_probabilities st Hreach) as Hunit.
  unfold correct_spelling, correct_spelling_over. rewrite decide_False by done.
  assert (Hw0 : w0 ∈ best_guesses_over candidates st word)
    by (by apply elem_of_best_guesses).
  pose proof (NoDup_best_guesses candidates st word) as Hnodup.
  assert (Hbg : ∀ w, w ∈ best_guesses_over candidates st word
                     ↔ w ∈ vocabulary st ∧ w ∈ candidates word)
    by (intros w; apply elem_of_best_guesses).
  destruct (best_guesses_over candidates st word) as [|g gs];
    [by apply elem_of_nil in Hw0|].
  set (sorted := sort_by_key (λ w, combined_score st w word) (g :: gs)).
  assert (Hperm : sorted ≡ₚ g :: gs) by apply sort_by_key_Permutation.
  rewrite (comprehension_rows st Row2 sorted Hst)
    by (intros w Hw; rewrite Hperm in Hw; by apply Hbg in Hw as [? _]).
  simpl. eexists. split; [reflexivity|]. split; [|split].
  - intros r. rewrite list_elem_of_fmap. split.
    + intros (w & -> & Hw). rewrite Hperm in Hw. apply Hbg in Hw as [Hv Hc].
      destruct (Hst w Hv) as [p Hp]. exists w, p. by rewrite Hp.
    + intros (w & p & -> & Hv & Hc & Hp). exists w. rewrite Hp. split; [done|].
      rewrite Hperm. by apply Hbg.
  - rewrite (fmap_row_word Row2) by done. by rewrite Hperm.
  - apply (StronglySorted_fmap _ (not_above (λ w, combined_score st w word))); [done|].
    apply sort_by_key_sorted. intros w _.
    by destruct (combined_score_unit st w word Hunit) as (x & -> & _).
Qed.

Lemma plain_rows_are_the_ranked_guesses_witness :
  ∃ rows, correct_spelling (plain_init rhyme_words) "xat" = Returns (Some rows)
    ∧ (∀ r, r ∈ rows ↔
         ∃ w p, r = Row2 w p ∧ w ∈ vocabulary (plain_init rhyme_words)
                ∧ w ∈ candidates "xat"
                ∧ prob_of_word (plain_init rhyme_words) !! w = Some p)
    ∧ NoDup (row_word <$> rows)
    ∧ StronglySorted
        (not_above (λ r, combined_score (plain_init rhyme_words) (row_word r) "xat")) rows.
Proof.
  apply (plain_rows_are_the_ranked_guesses (plain_init rhyme_words) "xat").
  - apply reach_plain_init.
  - apply (bool_decide_unpack _). vm_compute. exact I.
  - by apply xat_has_a_guess.
Defined.

Lemma context_aware_score_unit
    (st : engine) (suggestion original_word : string) (previous_words : list string) :
  unit_probabilities st →
  context_aware_score st suggestion original_word previous_words ≠ NaN.
Proof.
  intros Hunit. unfold context_aware_score.
  destruct (combined_score_unit st suggestion original_word Hunit) as (xc & -> & _).
  destruct (ngram_score_unit st 2 3 suggestion previous_words Hunit) as (xn & -> & _);
    [lra..|].
  unfold custom_bonus.
  destruct (feedback_score_range (user_feedback st) original_word suggestion)
    as [[-> _] | (xf & -> & _)]; by case_decide.
Qed.

Lemma hybrid_sort_key_unit
    (st : engine) (previous_words : list string) (word w : string) :
  unit_probabilities st → hybrid_sort_key st previous_words word w ≠ NaN.
Proof.
  intros Hunit. unfold hybrid_sort_key. destruct (should_use_context _ _).
  - by apply context_aware_score_unit.
  - by destruct (combined_score_unit st w word Hunit) as (x & -> & _).
Qed.

(** X21: what the hybrid pipeline returns for a word outside the
    vocabulary that has a guess.  On a reachable state
    [correct_spelling_hybrid] returns rows [(w, p, c)] in which [w] is a
    vocabulary member among the edit-1 and edit-2 candidates of the word,
    [p] its stored probability and [c] its context probability; no word
    occurs twice; the rows are in ascending order of the sort key (the
    context score for a homophone with preceding words, the combined score
    otherwise); and a guess is left out only when five rows are returned,
    none of which ranks strictly behind it. *)
Theorem hybrid_rows_are_the_best_guesses
    (st : engine) (previous_words : list string) (word : string) :
  reachable st → word ∉ vocabulary st →
  (∃ w, w ∈ vocabulary st ∧ w ∈ candidates word) →
  ∃ rows, correct_spelling_hybrid st previous_words word = Returns rows
    ∧ (∀ r, r ∈ rows →
         ∃ w p, r = Row3 w p (get_context_probability st w previous_words)
                ∧ w ∈ vocabulary st ∧ w ∈ candidates word
                ∧ prob_of_word st !! w = Some p)
    ∧ NoDup (row_word <$> rows)
    ∧ StronglySorted
        (not_above (λ r, hybrid_sort_key st previous_words word (row_word r))) rows
    ∧ (∀ w, w ∈ vocabulary st → w ∈ candidates word → w ∉ row_word <$> rows →
         length rows = 5%nat
         ∧ ∀ r, r ∈ rows →
             not_above (hybrid_sort_key st previous_words word) (row_word r) w).
Proof.
  intros Hreach Hword (w0 & Hw0v & Hw0c).
  pose proof (reachable_consistent st Hreach) as Hst.
  pose proof (reachable_unit_probabilities st Hreach) as Hunit.
  unfold correct_spelling_hybrid, correct_spelling_hybrid_over.
  rewrite decide_False by done.
  assert (Hw0 : w0 ∈ best_guesses_over candidates st word)
    by (by apply elem_of_best_guesses).
  pose proof (NoDup_best_guesses candidates st word) as Hnodup.
  assert (Hbg : ∀ w, w ∈ best_guesses_over candidates st word
                     ↔ w ∈ vocabulary st ∧ w ∈ candidates word)
    by (intros w; apply elem_of_best_guesses).
  destruct (best_guesses_over candidates st word) as [|g gs];
    [by apply elem_of_nil in Hw0|].
  set (sorted := sort_by_key (hybrid_sort_key st previous_words word) (g :: gs)).
  assert (Hsorted_eq :
    (if should_use_context word previous_words
     then sort_by_key (λ w, context_aware_score st w word previous_words) (g :: gs)
     else sort_by_key (λ w, combined_score st w word) (g :: gs)) = sorted).
  { unfold sorted, hybrid_sort_key. by destruct (should_use_context _ _). }
  rewrite Hsorted_eq.
  assert (Hperm : sorted ≡ₚ g :: gs) by apply sort_by_key_Permutation.
  assert (Hsorted : StronglySorted (not_above (hybrid_sort_key st previous_words word))
                      (take 5 sorted ++ drop 5 sorted)).
  { rewrite take_drop. apply sort_by_key_sorted.
    intros w _. by apply hybrid_sort_key_unit. }
  assert (Htake : ∀ w, w ∈ take 5 sorted → w ∈ sorted).
  { intros w Hw. rewrite <- (take_drop 5 sorted). apply elem_of_app. by left. }
  rewrite (comprehension_rows st
             (λ w p, Row3 w p (get_context_probability st w previous_words))
             (take 5 sorted) Hst)
    by (intros w Hw; apply Htake in Hw; rewrite Hperm in Hw; by apply Hbg in Hw as [? _]).
  eexists. split; [reflexivity|].
  rewrite (fmap_row_word
             (λ w p, Row3 w p (get_context_probability st w previous_words))) by done.
  split; [|split; [|split]].
  - intros r. rewrite list_elem_of_fmap. intros (w & -> & Hw).
    apply Htake in Hw. rewrite Hperm in Hw. apply Hbg in Hw as [Hv Hc].
    destruct (Hst w Hv) as [p Hp]. exists w, p. by rewrite Hp.
  - apply (sublist_NoDup _ sorted); [by rewrite Hperm | apply sublist_take].
  - apply (StronglySorted_fmap _ (not_above (hybrid_sort_key st previous_words word)));
      [done|]. by apply StronglySorted_app_1_l in Hsorted.
  - intros w Hv Hc Hout.
    assert (Hw : w ∈ drop 5 sorted).
    { assert (Hin : w ∈ (take 5 sorted ++ drop 5 sorted)%list).
      { rewrite take_drop, Hperm. by apply Hbg. }
      apply elem_of_app in Hin as [Hin|Hin]; [by destruct Hout | done]. }
    split.
    + rewrite length_fmap, length_take.
      assert (Hlen : (0 < length (drop 5 sorted))%nat)
        by (destruct (drop 5 sorted); [by apply elem_of_nil in Hw | simpl; lia]).
      rewrite length_drop in Hlen. lia.
    + intros r. rewrite list_elem_of_fmap. intros (w' & -> & Hw'). simpl.
      eapply StronglySorted_app_1_elem_of; [exact Hsorted | done | done].
Qed.

Lemma hybrid_rows_are_the_best_guesses_witness :
  let st := hybrid_init rhyme_words None in
  ∃ rows, correct_spelling_hybrid st ["the"] "xat" = Returns rows
    ∧ (∀ r, r ∈ rows →
         ∃ w p, r = Row3 w p (get_context_probability st w ["the"])
                ∧ w ∈ vocabulary st ∧ w ∈ candidates "xat"
                ∧ prob_of_word st !! w = Some p)
    ∧ NoDup (row_word <$> rows)
    ∧ StronglySorted
        (not_above (λ r, hybrid_sort_key st ["the"] "xat" (row_word r))) rows
    ∧ (∀ w, w ∈ vocabulary st → w ∈ candidates "xat" → w ∉ row_word <$> rows →
         length rows = 5%nat
         ∧ ∀ r, r ∈ rows → not_above (hybrid_sort_key st ["the"] "xat") (row_word r) w).
Proof.
  apply (hybrid_rows_are_the_best_guesses (hybrid_init rhyme_words None) ["the"] "xat").
  - exact (reach_init no_sym_spell rhyme_words None None).
  - apply (bool_decide_unpack _). vm_compute. exact I.
  - apply xat_has_a_guess. apply (bool_decide_unpack _). vm_compute. exact I.
Defined.

(** X22: outside the context mode the hybrid pipeline is the plain
    ranking cut to five.  On a reachable state, for a word outside the
    vocabulary that has a guess and for which [should_use_context] is
    false, the rows of [correct_spelling_hybrid] are the first five rows of
    [Autocorrection.correct_spelling] over the same tables, each extended
    with the context probability of its word. *)
Theorem hybrid_without_context_is_plain_top_five
    (st : engine) (previous_words : list string) (word : string) :
  reachable st → should_use_context word previous_words = false →
  word ∉ vocabulary st →
  (∃ w, w ∈ vocabulary st ∧ w ∈ candidates word) →
  ∃ rows, correct_spelling st word = Returns (Some rows)
    ∧ correct_spelling_hybrid st previous_words word
      = Returns ((λ r, Row3 (row_word r) (row_prob r)
                         (get_context_probability st (row_word r) previous_words))
                 <$> take 5 rows).
Proof.
  intros Hreach Hmode Hword (w0 & Hw0v & Hw0c).
  pose proof (reachable_consistent st Hreach) as Hst.
  unfold correct_spelling, correct_spelling_over,
    correct_spelling_hybrid, correct_spelling_hybrid_over.
  rewrite !decide_False by done. rewrite Hmode.
  assert (Hw0 : w0 ∈ best_guesses_over candidates st word)
    by (by apply elem_of_best_guesses).
  assert (Hbg : ∀ w, w ∈ best_guesses_over candidates st word → w ∈ vocabulary st)
    by (intros w Hw; by apply elem_of_best_guesses in Hw as [? _]).
  destruct (best_guesses_over candidates st word) as [|g gs];
    [by apply elem_of_nil in Hw0|].
  set (sorted := sort_by_key (λ w, combined_score st w word) (g :: gs)).
  assert (Hsorted : ∀ w, w ∈ sorted → w ∈ vocabulary st).
  { intros w Hw. apply Hbg. unfold sorted in Hw.
    by rewrite sort_by_key_Permutation in Hw. }
  rewrite (comprehension_rows st Row2 sorted Hst Hsorted).
  rewrite (comprehension_rows st
             (λ w p, Row3 w p (get_context_probability st w previous_words))
             (take 5 sorted) Hst).
  - simpl. eexists. split; [reflexivity|]. f_equal.
    by rewrite <- fmap_take, <- list_fmap_compose.
  - intros w Hw. apply Hsorted. rewrite <- (take_drop 5 sorted).
    apply elem_of_app. by left.
Qed.

Lemma hybrid_without_context_is_plain_top_five_witness :
  let st := hybrid_init rhyme_words None in
  ∃ rows, correct_spelling st "xat" = Returns (Some rows)
    ∧ correct_spelling_hybrid st ["the"] "xat"
      = Returns ((λ r, Row3 (row_word r) (row_prob r)
                         (get_context_probability st (row_word r) ["the"]))
                 <$> take 5 rows).
Proof.
  apply (hybrid_without_context_is_plain_top_five
           (hybrid_init rhyme_words None) ["the"] "xat").
  - exact (reach_init no_sym_spell rhyme_words None None).
  - vm_compute. reflexivity.
  - apply (bool_decide_unpack _). vm_compute. exact I.
  - apply xat_has_a_guess. apply (bool_decide_unpack _). vm_compute. exact I.
Defined.

(** ** The context window *)

Lemma ngram_score_window (st : engine) (kb kt : R) (suggestion : string)
    (pre : list string) (a b : string) :
  ngram_score st kb kt suggestion (pre ++ [a; b])
  = ngram_score st kb kt suggestion [a; b].
Proof.
  unfold ngram_score.
  destruct (from_end_2 pre a b) as [-> ->].
  destruct (from_end_2 [] a b) as [H2 H1]. simpl app in H2, H1. rewrite H2, H1.
  rewrite !decide_True; [done|simpl; lia..|rewrite length_app; simpl; lia
                        |rewrite length_app; simpl; lia].
Qed.

Lemma get_context_probability_window (st : engine) (word : string)
    (pre : list string) (a b : string) :
  get_context_probability st word (pre ++ [a; b])
  = get_context_probability st word [a; b].
Proof.
  unfold get_context_probability.
  destruct (from_end_2 pre a b) as [-> ->].
  destruct (from_end_2 [] a b) as [H2 H1]. simpl app in H2, H1. rewrite H2, H1.
  rewrite !(decide_True (P := (2 ≤ length (pre ++ [a; b]))%nat))
    by (rewrite length_app; simpl; lia).
  rewrite !(decide_True (P := (1 ≤ length (pre ++ [a; b]))%nat))
    by (rewrite length_app; simpl; lia).
  rewrite !(decide_True (P := (2 ≤ length [a; b])%nat)) by (simpl; lia).
  by rewrite !(decide_True (P := (1 ≤ length [a; b])%nat)) by (simpl; lia).
Qed.

(** X23: only the last two preceding words count.  For every state, word
    and list of preceding words that ends with the two words a and b, the
    hybrid pipeline returns what it returns for the preceding words a and
    b alone, and [get_context_probability] and [context_aware_score] take
    the values they take for a and b alone. *)
Theorem only_the_last_two_words_count
    (st : engine) (word : string) (pre : list string) (a b : string) :
  correct_spelling_hybrid st (pre ++ [a; b]) word
  = correct_spelling_hybrid st [a; b] word
  ∧ (∀ w, get_context_probability st w (pre ++ [a; b])
          = get_context_probability st w [a; b])
  ∧ (∀ w, context_aware_score st w word (pre ++ [a; b])
          = context_aware_score st w word [a; b]).
Proof.
  assert (Hscore : ∀ w, context_aware_score st w word (pre ++ [a; b])
                        = context_aware_score st w word [a; b]).
  { intros w. unfold context_aware_score. by rewrite ngram_score_window. }
  assert (Hmode : should_use_context word (pre ++ [a; b])
                  = should_use_context word [a; b]).
  { unfold should_use_context. f_equal.
    rewrite !bool_decide_eq_true_2; [done | simpl; lia | rewrite length_app; simpl; lia]. }
  split; [|split; [intros w; apply get_context_probability_window | exact Hscore]].
  unfold correct_spelling_hybrid, correct_spelling_hybrid_over.
  case_decide; [done|].
  destruct (best_guesses_over candidates st word) as [|g gs]; [done|].
  rewrite Hmode.
  rewrite (sort_by_key_ext (λ w, context_aware_score st w word (pre ++ [a; b]))
             (λ w, context_aware_score st w word [a; b]) (g :: gs) Hscore).
  apply comprehension_ext. intros w. by rewrite get_context_probability_window.
Qed.

(** ** The plain pipeline with a previous word *)

Lemma context_score_unit (st : engine) (previous_word word w : string) :
  unit_probabilities st → context_score st previous_word word w ≠ NaN.
Proof.
  intros Hunit. unfold context_score.
  destruct (combined_score_unit st w word Hunit) as (xc & -> & _).
  destruct Hunit as (Hw & Hbg & _).
  assert (Hu : (0 < default prob_floor (prob_of_word st !! w))%Qc
               ∧ (default prob_floor (prob_of_word st !! w) <= 1)%Qc).
  { destruct (prob_of_word st !! w) as [p|] eqn:Hp; simpl;
      [by apply (Hw w) | apply prob_floor_unit]. }
  destruct (neg_log_unit _ (proj1 Hu) (proj2 Hu)) as (xu & -> & _).
  destruct previous_word as [|c previous_word]; [done|].
  set (bg := prob_of_bigram st !! (String c previous_word, w)).
  assert (Hb : (0 < default prob_floor bg)%Qc ∧ (default prob_floor bg <= 1)%Qc).
  { unfold bg. destruct (prob_of_bigram st !! _) as [p|] eqn:Hp; simpl;
      [by apply Hbg in Hp | apply prob_floor_unit]. }
  by destruct (neg_log_unit _ (proj1 Hb) (proj2 Hb)) as (xb & -> & _).
Qed.

(** X24: what the plain pipeline with a previous word returns for a word
    outside the vocabulary that has a guess.  On a reachable state
    [correct_spelling_with_context] returns rows [(w, p, b)] such that
    [(w, p, b)] is a row exactly when [w] is a vocabulary member among the
    edit-1 and edit-2 candidates of the word, [p] is its stored probability
    and [b] is the stored probability of the bigram (previous word, w), or 0
    when there is none; no word occurs in two rows; and the rows are in
    ascending order of the local [context_score]. *)
Theorem context_rows_are_the_ranked_guesses
    (st : engine) (previous_word word : string) :
  reachable st → word ∉ vocabulary st →
  (∃ w, w ∈ vocabulary st ∧ w ∈ candidates word) →
  ∃ rows, correct_spelling_with_context st previous_word word = Returns rows
    ∧ (∀ r, r ∈ rows ↔
         ∃ w p, r = Row3 w p (default 0%Qc (prob_of_bigram st !! (previous_word, w)))
                ∧ w ∈ vocabulary st ∧ w ∈ candidates word
                ∧ prob_of_word st !! w = Some p)
    ∧ NoDup (row_word <$> rows)
    ∧ StronglySorted
        (not_above (λ r, context_score st previous_word word (row_word r))) rows.
Proof.
  intros Hreach Hword (w0 & Hw0v & Hw0c).
  pose proof (reachable_consistent st Hreach) as Hst.
  pose proof (reachable_unit_probabilities st Hreach) as Hunit.
  unfold correct_spelling_with_context, correct_spelling_with_context_over.
  rewrite decide_False by done.
  assert (Hw0 : w0 ∈ best_guesses_over candidates st word)
    by (by apply elem_of_best_guesses).
  pose proof (NoDup_best_guesses candidates st word) as Hnodup.
  assert (Hbg : ∀ w, w ∈ best_guesses_over candidates st word
                     ↔ w ∈ vocabulary st ∧ w ∈ candidates word)
    by (intros w; apply elem_of_best_guesses).
  destruct (best_guesses_over candidates st word) as [|g gs];
    [by apply elem_of_nil in Hw0|].
  set (sorted := sort_by_key (context_score st previous_word word) (g :: gs)).
  assert (Hperm : sorted ≡ₚ g :: gs) by apply sort_by_key_Permutation.
  rewrite (comprehension_rows st
             (λ w p, Row3 w p (default 0%Qc (prob_of_bigram st !! (previous_word, w))))
             sorted Hst)
    by (intros w Hw; rewrite Hperm in Hw; by apply Hbg in Hw as [? _]).
  eexists. split; [reflexivity|]. split; [|split].
  - intros r. rewrite list_elem_of_fmap. split.
    + intros (w & -> & Hw). rewrite Hperm in Hw. apply Hbg in Hw as [Hv Hc].
      destruct (Hst w Hv) as [p Hp]. exists w, p. by rewrite Hp.
    + intros (w & p & -> & Hv & Hc & Hp). exists w. rewrite Hp. split; [done|].
      rewrite Hperm. by apply Hbg.
  - rewrite (fmap_row_word
               (λ w p, Row3 w p (default 0%Qc (prob_of_bigram st !! (previous_word, w)))))
      by done.
    by rewrite Hperm.
  - apply (StronglySorted_fmap _ (not_above (context_score st previous_word word)));
      [done|].
    apply sort_by_key_sorted. intros w _. by apply context_score_unit.
Qed.

Lemma context_rows_are_the_ranked_guesses_witness :
  let st := plain_init rhyme_words in
  ∃ rows, correct_spelling_with_context st "the" "xat" = Returns rows
    ∧ (∀ r, r ∈ rows ↔
         ∃ w p, r = Row3 w p (default 0%Qc (prob_of_bigram st !! ("the", w)))
                ∧ w ∈ vocabulary st ∧ w ∈ candidates "xat"
                ∧ prob_of_word st !! w = Some p)
    ∧ NoDup (row_word <$> rows)
    ∧ StronglySorted (not_above (λ r, context_score st "the" "xat" (row_word r))) rows.
Proof.
  apply (context_rows_are_the_ranked_guesses (plain_init rhyme_words) "the" "xat").
  - apply reach_plain_init.
  - apply (bool_decide_unpack _). vm_compute. exact I.
  - by apply xat_has_a_guess.
Defined.

(** ** The candidate set *)

Lemma splits_intro (l r : string) : (l, r) ∈ Str.splits (l +:+ r).
Proof.
  induction l as [|c l IH]; [apply splits_head|]. by apply (splits_cons c) in IH.
Qed.

(** X25: for a word that contains a lowercase letter the union in
    [edit1(word).union(edit2(word))] adds nothing to [edit2(word)].
    Replacing the letter by itself gives the word back, so the word is in
    [edit1(word)], every member of [edit1(word)] is one edit away from a
    member of [edit1(word)], and the candidate set is the set of
    [edit2(word)]; in particular the word is a candidate of itself. *)
Theorem candidates_are_edit2 (l r : string) (c : ascii) :
  Str.is_lower c = true →
  let word := l +:+ String c r in
  word ∈ edit1 word
  ∧ (∀ w, w ∈ edit1 word → w ∈ edit2 word)
  ∧ candidates word = list_to_set (edit2 word).
Proof.
  intros Hc word.
  assert (Hself : word ∈ edit1 word).
  { apply elem_of_edit1. left. apply elem_of_edit1_replace.
    exists l, c, r, c. split; [apply splits_intro|].
    split; [by apply is_lower_ascii_lowercase | done]. }
  assert (Hsub : ∀ w, w ∈ edit1 word → w ∈ edit2 word).
  { intros w Hw. apply elem_of_edit2. by exists word. }
  split; [exact Hself|]. split; [exact Hsub|].
  apply set_eq. intros w. rewrite elem_of_candidates, elem_of_list_to_set.
  split; [intros [Hw|Hw]; [by apply Hsub | done] | by right].
Qed.

Lemma candidates_are_edit2_witness :
  "helo" ∈ edit1 "helo"
  ∧ (∀ w, w ∈ edit1 "helo" → w ∈ edit2 "helo")
  ∧ candidates "helo" = list_to_set (edit2 "helo").
Proof. apply (candidates_are_edit2 "he" "o" "l"). reflexivity. Defined.
